(** * rerun_bridge: the ROS 1 to Rerun logger node

    A shallow embedding of [visualizer_node.cpp] and
    [rerun_ros_interface.cpp].  The node's members become a record that is
    threaded explicitly through every member function; [std::map] is a
    [gmap]; the recording stream is the list of rows it was asked to log;
    operations whose C++ behaviour is undefined (an iterator moved past
    [rend()], [transforms[0]] on an empty vector) yield no value: [None],
    or [Undefined] where exceptions are told apart; an exception nobody
    catches ends the call with [Throw]. *)

From Stdlib Require Import ZArith QArith Ascii String List Lia.
From stdpp Require Import base option list sorting strings gmap fin_maps.

#[local] Set Warnings "-register-all,-clear-no-such-hyp".

(** ** [std::string] primitives used by the node *)

Module Str.

(** [s.rfind(c)]: index of the last occurrence, [None] for [npos]. *)
Fixpoint rfind (c : ascii) (s : string) : option nat :=
  match s with
  | EmptyString => None
  | String a s' =>
      match rfind c s' with
      | Some i => Some (S i)
      | None => if Ascii.eqb a c then Some 0 else None
      end
  end.

(** [std::replace(s.begin() + lo, s.begin() + hi, old, new)] on a copy. *)
Fixpoint replace (lo hi : nat) (old new : ascii) (s : string) {struct s}
    : string :=
  match s with
  | EmptyString => EmptyString
  | String a s' =>
      match lo, hi with
      | _, O => s
      | O, S hi' =>
          String (if Ascii.eqb a old then new else a) (replace 0 hi' old new s')
      | S lo', S hi' => String a (replace lo' hi' old new s')
      end
  end.

(** Does the character occur in the string? *)
Fixpoint mem (c : ascii) (s : string) : bool :=
  match s with
  | EmptyString => false
  | String a s' => Ascii.eqb a c || mem c s'
  end.

End Str.

(** ** Entity paths *)

(** [parent_entity_path], visualizer_node.cpp:14. *)
Definition parent_entity_path (entity_path : string) : string :=
  match Str.rfind "/" entity_path with
  | None => ""
  | Some last_slash => String.substring 0 last_slash entity_path
  end.

(** The [else] branch of [_resolve_entity_path].  [std::find] over the
    reverse range returns [rend()] when the topic holds no ['/']; the
    [+ 1] then moves the iterator past [rend()], which is undefined. *)
Definition flatten_topic (topic : string) : option string :=
  match Str.rfind "/" topic with
  | None => None
  | Some last_slash =>
      let flattened_topic :=
        if decide (last_slash ≠ 0)
        then Str.replace 1 last_slash "/" "-" topic
        else topic in
      Some ("/topics" +:+ flattened_topic)
  end.

(** [RerunLoggerNode::_resolve_entity_path], visualizer_node.cpp:72. *)
Definition _resolve_entity_path
    (_topic_to_entity_path : gmap string string) (topic : string)
    : option string :=
  match _topic_to_entity_path !! topic with
  | Some entity_path => Some entity_path
  | None => flatten_topic topic
  end.

(** The fallback as the specification words it, on a topic given by its
    segments: the final segment is kept behind a ['/'], the segments before
    it are glued with ['-'], and ["/topics"] goes in front. *)
Definition flattened_segments (segs : list string) : string :=
  match List.removelast segs with
  | [] => "/topics/" +:+ List.last segs ""
  | pre => "/topics/" +:+ String.concat "-" pre +:+ "/" +:+ List.last segs ""
  end.

Definition topic_of_segments (segs : list string) : string :=
  "/" +:+ String.concat "/" segs.

(** ** Numbers

    [double] stands for the C++ floating-point values the node handles
    ([ros::Time::toSec()], the message fields, the configured rate).  The
    node only subtracts, divides, compares and narrows them, so the carrier
    is kept abstract together with the laws the timeline and the timers rely
    on; they hold of IEEE doubles on finite values, and [ros::Time::toSec()]
    is always finite.  A [ros::Time] is represented by its [toSec()] value,
    the only way the node reads it.  [static_cast_float x] is the value of
    [static_cast<float>(x)]; nothing is assumed of it. *)
Class Double (double : Type) := {
  dlit : Q → double;
  dsub : double → double → double;
  ddiv : double → double → double;
  dlt : double → double → Prop;
  deqb : double → double → bool;
  dlt_dec :: RelDecision dlt;
  static_cast_float : double → double;
  dsub_diag : ∀ x, dsub x x = dlit 0;
  dsub_lt : ∀ x y, dlt x y → dlt (dsub x y) (dlit 0);
  deqb_zero : deqb (dlit 0) (dlit 0) = true;
}.

(** The integer nearest to [a / b], ties to the even one. *)
Definition round_half_even (a : Z) (b : positive) : Z :=
  let q := (a / Z.pos b)%Z in
  match (2 * (a mod Z.pos b) ?= Z.pos b)%Z with
  | Lt => q
  | Gt => (q + 1)%Z
  | Eq => if Z.even q then q else (q + 1)%Z
  end.

(** [2 ^ k] for a [k] that is not negative, 1 otherwise. *)
Definition pow2 (k : Z) : positive := Z.to_pos (2 ^ Z.max 0 k).

(** The binary32 value nearest to a rational: 24 significant bits, the
    smallest exponent -126, ties to even.  A rational behind the largest
    float has no finite image; it is rounded like the others. *)
Definition binary32 (x : Q) : Q :=
  if (Qnum x =? 0)%Z then 0%Q
  else
    let n := Z.abs (Qnum x) in
    let d := Qden x in
    let k := (Z.log2 n - Z.log2 (Z.pos d))%Z in
    let e := if (n * Z.pos (pow2 (- k)) <? Z.pos d * Z.pos (pow2 k))%Z
             then (k - 1)%Z else k in
    let p := (Z.max e (-126) - 23)%Z in
    let m := round_half_even (Qnum x * Z.pos (pow2 (- p))) (d * pow2 p) in
    Qred ((m * Z.pos (pow2 p)) # pow2 (- p)).

(** Exact rational seconds, kept in lowest terms, are one such carrier. *)
#[export, refine] Instance Q_Double : Double Q := {|
  dlit q := Qred q;
  dsub x y := Qred (x - y);
  ddiv x y := Qred (x / y);
  dlt x y := Qlt x y;
  deqb x y := Qeq_bool x y;
  dlt_dec x y := Z_lt_dec (Qnum x * QDen y) (Qnum y * QDen x);
  static_cast_float x := binary32 x;
|}.
Proof.
  - intros x. apply Qred_complete. unfold Qminus. apply Qplus_opp_r.
  - intros x y Hxy. rewrite !Qred_correct. unfold Qminus.
    apply (Qplus_lt_l _ _ y). rewrite <- Qplus_assoc, (Qplus_comm (- y) y).
    rewrite Qplus_opp_r, Qplus_0_r, Qplus_0_l. exact Hxy.
  - reflexivity.
Defined.

(** What can stop a member function short of returning. *)
Inductive Outcome (A : Type) : Type :=
  | Ok (a : A)
  | Throw (what : string)
  | Undefined.
Arguments Ok {A} a.
Arguments Throw {A} what.
Arguments Undefined {A}.

Definition of_option {A} (o : option A) : Outcome A :=
  match o with Some a => Ok a | None => Undefined end.

#[export] Instance Outcome_ret : MRet Outcome := λ A a, Ok a.
#[export] Instance Outcome_bind : MBind Outcome := λ A B f m,
  match m with
  | Ok a => f a
  | Throw what => Throw what
  | Undefined => Undefined
  end.

(** ** The nested [tf.tree] declaration

    A yaml-cpp node as [_add_tf_tree] meets it: a mapping from frame names
    to nodes, in document order; a leaf is a null or scalar node, whose
    [size()] is 0 and whose iteration is empty.  Sequences and keys that
    are not scalars, on which [as<std::string>()] throws, do not occur in a
    frame declaration. *)
Inductive YamlNode : Type :=
  | YNull
  | YScalar (s : string)
  | YMap (kvs : list (string * YamlNode)).

Definition yaml_size (node : YamlNode) : nat :=
  match node with
  | YMap kvs => length kvs
  | _ => 0
  end.

Definition yaml_items (node : YamlNode) : list (string * YamlNode) :=
  match node with
  | YMap kvs => kvs
  | _ => []
  end.

(** The two frame tables [_add_tf_tree] fills. *)
Record FrameTables := {
  ft_entity_path : gmap string string;
  ft_parent : gmap string string;
}.

(** [RerunLoggerNode::_add_tf_tree], visualizer_node.cpp:182. *)
Fixpoint _add_tf_tree (node : YamlNode) (parent_entity_path parent_frame : string)
    (t : FrameTables) : FrameTables :=
  match node with
  | YMap kvs =>
      (fix each (kvs : list (string * YamlNode)) (t : FrameTables) : FrameTables :=
         match kvs with
         | [] => t
         | (frame, value) :: kvs' =>
             let entity_path := parent_entity_path +:+ "/" +:+ frame in
             let t := {| ft_entity_path := <[frame := entity_path]> (ft_entity_path t);
                         ft_parent := <[frame := parent_frame]> (ft_parent t) |} in
             let t := if decide (1 ≤ yaml_size value)
                      then _add_tf_tree value entity_path frame t
                      else t in
             each kvs' t
         end) kvs t
  | _ => t
  end.

(** The two assignments of one turn of the loop. *)
Definition enter (frame ppath pframe : string) (t : FrameTables) : FrameTables :=
  {| ft_entity_path := <[frame := ppath +:+ "/" +:+ frame]> (ft_entity_path t);
     ft_parent := <[frame := pframe]> (ft_parent t) |}.

(** The tables [_read_yaml_config] has built after [tf.tree]. *)
Definition frame_tables (tree : YamlNode) : FrameTables :=
  _add_tf_tree tree "" "" {| ft_entity_path := ∅; ft_parent := ∅ |}.

(** A frame declared somewhere in the tree, with the path of its enclosing
    frames and the name of the frame right above it. *)
Inductive declares : YamlNode → string → string → string → string → string → Prop :=
  | declares_here kvs ppath pframe frame value :
      (frame, value) ∈ kvs →
      declares (YMap kvs) ppath pframe frame (ppath +:+ "/" +:+ frame) pframe
  | declares_below kvs ppath pframe outer value frame path parent :
      (outer, value) ∈ kvs →
      declares value (ppath +:+ "/" +:+ outer) outer frame path parent →
      declares (YMap kvs) ppath pframe frame path parent.

(** The frame names of a declaration, in document order, nested ones
    included. *)
Fixpoint frames_of (node : YamlNode) : list string :=
  match node with
  | YMap kvs =>
      (fix each (kvs : list (string * YamlNode)) : list string :=
         match kvs with
         | [] => []
         | (frame, value) :: kvs' => frame :: frames_of value ++ each kvs'
         end) kvs
  | _ => []
  end.

Section Node.

Context {double : Type} `{Double double}.

(** ** Decoded ROS messages *)

Record Header := { stamp : double; frame_id : string }.
Record Vector3 := { v_x : double; v_y : double; v_z : double }.
Record Quaternion := { q_w : double; q_x : double; q_y : double; q_z : double }.
Record Transform := { translation : Vector3; rotation : Quaternion }.
Record TransformStamped := {
  ts_header : Header;
  child_frame_id : string;
  transform : Transform;
}.
Record TFMessage := { transforms : list TransformStamped }.
Record Pose := { position : Vector3; orientation : Quaternion }.
Record PoseStamped := { ps_header : Header; ps_pose : Pose }.
Record Odometry := { odom_header : Header; odom_pose : Pose }.
Record Imu := { imu_header : Header; linear_acceleration : Vector3 }.
Record Image := {
  img_header : Header;
  img_height : N;
  img_width : N;
  encoding : string;
  img_data : list N;
}.
Record CameraInfo := {
  ci_header : Header;
  ci_height : N;
  ci_width : N;
  ci_K : nat → double;
}.

(** [static_cast<int>] of a [uint32_t] field: the value modulo [2 ^ 32]
    in the range of [int]. *)
Definition static_cast_int (x : N) : Z :=
  let x := (Z.of_N x mod 2 ^ 32)%Z in
  if (x <? 2 ^ 31)%Z then x else (x - 2 ^ 32)%Z.

(** [ros::Time - ros::Duration], for the positive durations the node
    subtracts.  A [ros::Time] holds unsigned seconds: a difference below
    zero throws [std::runtime_error]. *)
Definition minus_duration (t d : double) : Outcome double :=
  if decide (dlt t d) then Throw "Time is out of dual 32-bit range"
  else Ok (dsub t d).

(** ** The recording stream

    [cv_bridge::toCvCopy] and the tensor adapters are external: the decoded
    matrix is an opaque [Mat], obtained from the message and the optional
    target encoding; a conversion cv_bridge cannot do throws
    [cv_bridge::Exception]. *)
Context {Mat : Type} (toCvCopy : Image → option string → Outcome Mat).

Inductive TensorBuffer : Type :=
  | u16 (img : Mat)
  | f32 (img : Mat)
  | u8 (img : Mat).

Inductive Archetype : Type :=
  | Scalar (value : double)
  | DepthImage (buffer : TensorBuffer) (meter : option Q)
  | ColorImage (buffer : TensorBuffer)
  | Transform3D (translation : Vector3) (rotation_wxyz : Quaternion)
  | Points3D (points : list Vector3)
  | Pinhole (image_from_camera : list double) (resolution : option (Z * Z)).

Definition with_meter (m : Q) (a : Archetype) : Archetype :=
  match a with
  | DepthImage buffer _ => DepthImage buffer (Some m)
  | _ => a
  end.

Definition with_resolution (w h : Z) (a : Archetype) : Archetype :=
  match a with
  | Pinhole m _ => Pinhole m (Some (w, h))
  | _ => a
  end.

(** One logged row: where, at which time of the ["timestamp"] timeline
    (none when the timeline was never set), and what. *)
Record Row := {
  row_entity_path : string;
  row_timestamp : option double;
  row_data : Archetype;
}.

Record RecordingStream := {
  rec_timestamp : option double;
  rec_rows : list Row;
}.

Definition set_time_seconds (seconds : double) (rec : RecordingStream)
    : RecordingStream :=
  {| rec_timestamp := Some seconds; rec_rows := rec_rows rec |}.

Definition log (entity_path : string) (a : Archetype) (rec : RecordingStream)
    : RecordingStream :=
  {| rec_timestamp := rec_timestamp rec;
     rec_rows := rec_rows rec ++
       [ {| row_entity_path := entity_path;
            row_timestamp := rec_timestamp rec;
            row_data := a |} ] |}.

Definition is_depth (a : Archetype) : bool :=
  match a with DepthImage _ _ => true | _ => false end.

(** Metres per raw depth unit of a depth image. *)
Definition depth_scale (a : Archetype) : option Q :=
  match a with
  | DepthImage _ (Some m) => Some (Qred (/ m))
  | _ => None
  end.

(** The stream grew by rows that all carry the timestamp [ts]. *)
Definition stamped_with (ts : double) (before after : RecordingStream) : Prop :=
  ∃ new, rec_rows after = rec_rows before ++ new ∧
         Forall (λ row, row_timestamp row = Some ts) new.

(** ** rerun_ros_interface.cpp *)

Definition log_imu (rec : RecordingStream) (entity_path : string) (msg : Imu)
    (normalized_timestamp : double) : RecordingStream :=
  let rec := set_time_seconds normalized_timestamp rec in
  let rec := log (entity_path +:+ "/x") (Scalar (v_x (linear_acceleration msg))) rec in
  let rec := log (entity_path +:+ "/y") (Scalar (v_y (linear_acceleration msg))) rec in
  log (entity_path +:+ "/z") (Scalar (v_z (linear_acceleration msg))) rec.

(** [log_image], rerun_ros_interface.cpp:19.  Nothing catches what
    [toCvCopy] throws. *)
Definition log_image (rec : RecordingStream) (entity_path : string) (msg : Image)
    (normalized_timestamp : double) : Outcome RecordingStream :=
  let rec := set_time_seconds normalized_timestamp rec in
  if decide (encoding msg = "16UC1") then
    img ← toCvCopy msg None;
    Ok (log entity_path (with_meter 1000 (DepthImage (u16 img) None)) rec)
  else if decide (encoding msg = "32FC1") then
    img ← toCvCopy msg None;
    Ok (log entity_path (with_meter 1 (DepthImage (f32 img) None)) rec)
  else
    img ← toCvCopy msg (Some "rgb8");
    Ok (log entity_path (ColorImage (u8 img)) rec).

Definition log_pose_stamped (rec : RecordingStream) (entity_path : string)
    (msg : PoseStamped) (normalized_timestamp : double) : RecordingStream :=
  let rec := set_time_seconds normalized_timestamp rec in
  let rec := log entity_path
               (Transform3D (position (ps_pose msg)) (orientation (ps_pose msg))) rec in
  let trajectory_entity_path := "/trajectories/" +:+ entity_path in
  log trajectory_entity_path
    (Points3D [ {| v_x := static_cast_float (v_x (position (ps_pose msg)));
                   v_y := static_cast_float (v_y (position (ps_pose msg)));
                   v_z := static_cast_float (v_z (position (ps_pose msg))) |} ]) rec.

(** The body of the loop of [log_tf_message] for one entry.  The result
    carries the stream and the lines written with [ROS_WARN]. *)
Definition log_tf_entry (tf_frame_to_entity_path : gmap string string)
    (normalized_timestamp : double) (acc : RecordingStream * list string)
    (entry : TransformStamped) : Outcome (RecordingStream * list string) :=
  let '(rec, warnings) := acc in
  if decide (tf_frame_to_entity_path !! child_frame_id entry = None) then
    Ok (rec, warnings ++
             ["No entity path for frame_id " +:+ child_frame_id entry +:+ ", skipping"])
  else
    let rec := set_time_seconds normalized_timestamp rec in
    match tf_frame_to_entity_path !! child_frame_id entry with
    | Some entity_path =>
        Ok (log entity_path
              (Transform3D (translation (transform entry))
                           (rotation (transform entry))) rec,
            warnings)
    | None => Throw "map::at"
    end.

Fixpoint log_tf_entries (tf_frame_to_entity_path : gmap string string)
    (normalized_timestamp : double) (entries : list TransformStamped)
    (acc : RecordingStream * list string) : Outcome (RecordingStream * list string) :=
  match entries with
  | [] => Ok acc
  | entry :: entries' =>
      acc' ← log_tf_entry tf_frame_to_entity_path normalized_timestamp acc entry;
      log_tf_entries tf_frame_to_entity_path normalized_timestamp entries' acc'
  end.

(** What the specification asks of one entry of a transform list: a row
    at the path its child frame is mapped to, stamped with the batch's
    timestamp, or else a warning. *)
Definition tf_row (tf_frame_to_entity_path : gmap string string)
    (normalized_timestamp : double) (entry : TransformStamped) : option Row :=
  entity_path ← tf_frame_to_entity_path !! child_frame_id entry;
  Some {| row_entity_path := entity_path;
          row_timestamp := Some normalized_timestamp;
          row_data := Transform3D (translation (transform entry))
                                  (rotation (transform entry)) |}.

Definition tf_warning (tf_frame_to_entity_path : gmap string string)
    (entry : TransformStamped) : option string :=
  match tf_frame_to_entity_path !! child_frame_id entry with
  | Some _ => None
  | None =>
      Some ("No entity path for frame_id " +:+ child_frame_id entry +:+ ", skipping")
  end.

(** [log_tf_message], rerun_ros_interface.cpp:81. *)
Definition log_tf_message (rec : RecordingStream)
    (tf_frame_to_entity_path : gmap string string) (msg : TFMessage)
    (normalized_timestamp : double) : Outcome (RecordingStream * list string) :=
  log_tf_entries tf_frame_to_entity_path normalized_timestamp (transforms msg) (rec, []).

Definition log_odometry (rec : RecordingStream) (entity_path : string)
    (msg : Odometry) (normalized_timestamp : double) : RecordingStream :=
  let rec := set_time_seconds normalized_timestamp rec in
  log entity_path
    (Transform3D (position (odom_pose msg)) (orientation (odom_pose msg))) rec.

(** [log_camera_info], rerun_ros_interface.cpp:138: the timestamp is
    received and the timeline is left as it was. *)
Definition log_camera_info (rec : RecordingStream) (entity_path : string)
    (msg : CameraInfo) (normalized_timestamp : double) : RecordingStream :=
  let K i := static_cast_float (ci_K msg i) in
  let image_from_camera :=
    [K 0; K 3; K 6; K 1; K 4; K 7; K 2; K 5; K 8]%nat in
  log entity_path
    (with_resolution (static_cast_int (ci_width msg)) (static_cast_int (ci_height msg))
       (Pinhole image_from_camera None))
    rec.

Definition log_transform (rec : RecordingStream) (entity_path : string)
    (msg : TransformStamped) (normalized_timestamp : double) : RecordingStream :=
  let rec := set_time_seconds normalized_timestamp rec in
  log entity_path
    (Transform3D (translation (transform msg)) (rotation (transform msg))) rec.

(** ** visualizer_node.hpp: the node's members *)

(** What the lambda handed to [subscribe] does, together with the values
    it captured by copy. *)
Inductive Callback : Type :=
  | on_image (entity_path : string) (lookup_transform : bool)
  | on_imu (entity_path : string)
  | on_pose_stamped (entity_path : string)
  | on_tf_message
  | on_odometry (entity_path : string)
  | on_camera_info (entity_path : string).

(** A [ros::Subscriber] as returned by [NodeHandle::subscribe]. *)
Record Subscriber := {
  sub_topic : string;
  sub_queue_size : nat;
  sub_callback : Callback;
}.

(** [tf2_ros::Buffer::lookupTransform]: target frame, source frame, time
    and optional timeout; a [tf2::TransformException] carries its text. *)
Inductive Lookup : Type :=
  | Found (t : TransformStamped)
  | TransformException (what : string).

Definition TfBuffer : Type := string → string → double → option double → Lookup.

Record RerunLoggerNode := {
  _topic_to_entity_path : gmap string string;
  _topic_to_subscriber : gmap string Subscriber;
  _tf_frame_to_entity_path : gmap string string;
  _tf_frame_to_parent : gmap string string;
  _rec : RecordingStream;
  _root_frame : string;
  _tf_fixed_rate : double;
  _tf_buffer : TfBuffer;
  _time_offset : double;
  _time_offset_initialized : bool;
  (** outside the class: the lines written with [ROS_WARN], and the topics
      passed to [NodeHandle::subscribe], oldest first *)
  rosout : list string;
  nh_subscribed : list string;
}.

Definition set_time_offset (offset : double) (n : RerunLoggerNode) : RerunLoggerNode :=
  {| _topic_to_entity_path := _topic_to_entity_path n;
     _topic_to_subscriber := _topic_to_subscriber n;
     _tf_frame_to_entity_path := _tf_frame_to_entity_path n;
     _tf_frame_to_parent := _tf_frame_to_parent n;
     _rec := _rec n;
     _root_frame := _root_frame n;
     _tf_fixed_rate := _tf_fixed_rate n;
     _tf_buffer := _tf_buffer n;
     _time_offset := offset;
     _time_offset_initialized := true;
     rosout := rosout n;
     nh_subscribed := nh_subscribed n |}.

Definition set_rec (rec : RecordingStream) (n : RerunLoggerNode) : RerunLoggerNode :=
  {| _topic_to_entity_path := _topic_to_entity_path n;
     _topic_to_subscriber := _topic_to_subscriber n;
     _tf_frame_to_entity_path := _tf_frame_to_entity_path n;
     _tf_frame_to_parent := _tf_frame_to_parent n;
     _rec := rec;
     _root_frame := _root_frame n;
     _tf_fixed_rate := _tf_fixed_rate n;
     _tf_buffer := _tf_buffer n;
     _time_offset := _time_offset n;
     _time_offset_initialized := _time_offset_initialized n;
     rosout := rosout n;
     nh_subscribed := nh_subscribed n |}.

Definition ROS_WARN (lines : list string) (n : RerunLoggerNode) : RerunLoggerNode :=
  {| _topic_to_entity_path := _topic_to_entity_path n;
     _topic_to_subscriber := _topic_to_subscriber n;
     _tf_frame_to_entity_path := _tf_frame_to_entity_path n;
     _tf_frame_to_parent := _tf_frame_to_parent n;
     _rec := _rec n;
     _root_frame := _root_frame n;
     _tf_fixed_rate := _tf_fixed_rate n;
     _tf_buffer := _tf_buffer n;
     _time_offset := _time_offset n;
     _time_offset_initialized := _time_offset_initialized n;
     rosout := rosout n ++ lines;
     nh_subscribed := nh_subscribed n |}.

(** [_topic_to_subscriber[name] = _nh.subscribe(...)]. *)
Definition bind_subscriber (name : string) (sub : Subscriber) (n : RerunLoggerNode)
    : RerunLoggerNode :=
  {| _topic_to_entity_path := _topic_to_entity_path n;
     _topic_to_subscriber := <[name := sub]> (_topic_to_subscriber n);
     _tf_frame_to_entity_path := _tf_frame_to_entity_path n;
     _tf_frame_to_parent := _tf_frame_to_parent n;
     _rec := _rec n;
     _root_frame := _root_frame n;
     _tf_fixed_rate := _tf_fixed_rate n;
     _tf_buffer := _tf_buffer n;
     _time_offset := _time_offset n;
     _time_offset_initialized := _time_offset_initialized n;
     rosout := rosout n;
     nh_subscribed := nh_subscribed n ++ [sub_topic sub] |}.

(** ** visualizer_node.cpp *)

(** [RerunLoggerNode::_normalize_timestamp], visualizer_node.cpp:59. *)
Definition _normalize_timestamp (stamp : double) (n : RerunLoggerNode)
    : double * RerunLoggerNode :=
  let n := if negb (_time_offset_initialized n)
           then set_time_offset stamp n
           else n in
  (dsub stamp (_time_offset n), n).

(** The offset has been captured and is [T0]. *)
Definition anchored (T0 : double) (n : RerunLoggerNode) : Prop :=
  _time_offset_initialized n = true ∧ _time_offset n = T0.

(** The subscriber factories, visualizer_node.cpp:256-350.  Each resolves
    the entity path once, when the subscriber is made. *)
Definition _create_image_subscriber (topic : string) (n : RerunLoggerNode)
    : Outcome Subscriber :=
  entity_path ← of_option (_resolve_entity_path (_topic_to_entity_path n) topic);
  let lookup_transform := bool_decide (_topic_to_entity_path n !! topic = None) in
  Ok {| sub_topic := topic; sub_queue_size := 100;
        sub_callback := on_image entity_path lookup_transform |}.

Definition _create_imu_subscriber (topic : string) (n : RerunLoggerNode)
    : Outcome Subscriber :=
  entity_path ← of_option (_resolve_entity_path (_topic_to_entity_path n) topic);
  Ok {| sub_topic := topic; sub_queue_size := 100;
        sub_callback := on_imu entity_path |}.

Definition _create_pose_stamped_subscriber (topic : string) (n : RerunLoggerNode)
    : Outcome Subscriber :=
  entity_path ← of_option (_resolve_entity_path (_topic_to_entity_path n) topic);
  Ok {| sub_topic := topic; sub_queue_size := 100;
        sub_callback := on_pose_stamped entity_path |}.

Definition _create_tf_message_subscriber (topic : string) (n : RerunLoggerNode)
    : Outcome Subscriber :=
  entity_path ← of_option (_resolve_entity_path (_topic_to_entity_path n) topic);
  Ok {| sub_topic := topic; sub_queue_size := 100;
        sub_callback := on_tf_message |}.

Definition _create_odometry_subscriber (topic : string) (n : RerunLoggerNode)
    : Outcome Subscriber :=
  entity_path ← of_option (_resolve_entity_path (_topic_to_entity_path n) topic);
  Ok {| sub_topic := topic; sub_queue_size := 100;
        sub_callback := on_odometry entity_path |}.

Definition _create_camera_info_subscriber (topic : string) (n : RerunLoggerNode)
    : Outcome Subscriber :=
  entity_path ← of_option (_resolve_entity_path (_topic_to_entity_path n) topic);
  let entity_path :=
    if decide (_topic_to_entity_path n !! topic = None)
    then parent_entity_path entity_path
    else entity_path in
  Ok {| sub_topic := topic; sub_queue_size := 100;
        sub_callback := on_camera_info entity_path |}.

(** One entry of [ros::master::getTopics]. *)
Record TopicInfo := { name : string; datatype : string }.

(** The body of the loop of [_create_subscribers] for one registry entry. *)
Definition _create_subscriber_for (topic_info : TopicInfo) (n : RerunLoggerNode)
    : Outcome RerunLoggerNode :=
  if decide (is_Some (_topic_to_subscriber n !! name topic_info)) then Ok n
  else if decide (datatype topic_info = "sensor_msgs/Image") then
    sub ← _create_image_subscriber (name topic_info) n;
    Ok (bind_subscriber (name topic_info) sub n)
  else if decide (datatype topic_info = "sensor_msgs/Imu") then
    sub ← _create_imu_subscriber (name topic_info) n;
    Ok (bind_subscriber (name topic_info) sub n)
  else if decide (datatype topic_info = "geometry_msgs/PoseStamped") then
    sub ← _create_pose_stamped_subscriber (name topic_info) n;
    Ok (bind_subscriber (name topic_info) sub n)
  else if decide (datatype topic_info = "tf2_msgs/TFMessage") then
    sub ← _create_tf_message_subscriber (name topic_info) n;
    Ok (bind_subscriber (name topic_info) sub n)
  else if decide (datatype topic_info = "nav_msgs/Odometry") then
    sub ← _create_odometry_subscriber (name topic_info) n;
    Ok (bind_subscriber (name topic_info) sub n)
  else if decide (datatype topic_info = "sensor_msgs/CameraInfo") then
    sub ← _create_camera_info_subscriber (name topic_info) n;
    Ok (bind_subscriber (name topic_info) sub n)
  else Ok n.

(** [RerunLoggerNode::_create_subscribers], visualizer_node.cpp:198, on the
    registry answered by [ros::master::getTopics]. *)
Fixpoint _create_subscribers (topic_infos : list TopicInfo) (n : RerunLoggerNode)
    : Outcome RerunLoggerNode :=
  match topic_infos with
  | [] => Ok n
  | topic_info :: rest =>
      n' ← _create_subscriber_for topic_info n;
      _create_subscribers rest n'
  end.

(** The message types [_create_subscribers] knows. *)
Definition supported (datatype : string) : bool :=
  bool_decide (datatype ∈ ["sensor_msgs/Image"; "sensor_msgs/Imu";
                           "geometry_msgs/PoseStamped"; "tf2_msgs/TFMessage";
                           "nav_msgs/Odometry"; "sensor_msgs/CameraInfo"]).

(** At most one binding per topic: no topic was passed twice to
    [NodeHandle::subscribe], and the topics passed are the keys of
    [_topic_to_subscriber]. *)
Definition subscribed_once (n : RerunLoggerNode) : Prop :=
  NoDup (nh_subscribed n) ∧
  ∀ topic, topic ∈ nh_subscribed n ↔ is_Some (_topic_to_subscriber n !! topic).

(** The two places a binding is recorded in. *)
Definition bindings (n : RerunLoggerNode) : gmap string Subscriber * list string :=
  (_topic_to_subscriber n, nh_subscribed n).

(** The lambdas, visualizer_node.cpp:263-348. *)
Definition image_callback (entity_path : string) (lookup_transform : bool)
    (msg : Image) (n : RerunLoggerNode) : Outcome RerunLoggerNode :=
  let '(normalized_timestamp, n) := _normalize_timestamp (stamp (img_header msg)) n in
  let n :=
    if negb (bool_decide (_root_frame n = "")) && lookup_transform then
      match _tf_buffer n (_root_frame n) (frame_id (img_header msg))
                       (stamp (img_header msg)) (Some (dlit 0.1)) with
      | Found transform =>
          set_rec (log_transform (_rec n) (parent_entity_path entity_path)
                                 transform normalized_timestamp) n
      | TransformException what => ROS_WARN [what] n
      end
    else n in
  rec ← log_image (_rec n) entity_path msg normalized_timestamp;
  Ok (set_rec rec n).

Definition imu_callback (entity_path : string) (msg : Imu) (n : RerunLoggerNode)
    : RerunLoggerNode :=
  let '(normalized_timestamp, n) := _normalize_timestamp (stamp (imu_header msg)) n in
  set_rec (log_imu (_rec n) entity_path msg normalized_timestamp) n.

Definition pose_stamped_callback (entity_path : string) (msg : PoseStamped)
    (n : RerunLoggerNode) : RerunLoggerNode :=
  let '(normalized_timestamp, n) := _normalize_timestamp (stamp (ps_header msg)) n in
  set_rec (log_pose_stamped (_rec n) entity_path msg normalized_timestamp) n.

(** [msg->transforms[0]] is [std::vector::operator[]]: no bounds check. *)
Definition tf_message_callback (msg : TFMessage) (n : RerunLoggerNode)
    : Outcome RerunLoggerNode :=
  first ← of_option (transforms msg !! 0%nat);
  let '(normalized_timestamp, n) := _normalize_timestamp (stamp (ts_header first)) n in
  '(rec, warnings) ←
    log_tf_message (_rec n) (_tf_frame_to_entity_path n) msg normalized_timestamp;
  Ok (ROS_WARN warnings (set_rec rec n)).

Definition odometry_callback (entity_path : string) (msg : Odometry)
    (n : RerunLoggerNode) : RerunLoggerNode :=
  let '(normalized_timestamp, n) := _normalize_timestamp (stamp (odom_header msg)) n in
  set_rec (log_odometry (_rec n) entity_path msg normalized_timestamp) n.

Definition camera_info_callback (entity_path : string) (msg : CameraInfo)
    (n : RerunLoggerNode) : RerunLoggerNode :=
  let '(normalized_timestamp, n) := _normalize_timestamp (stamp (ci_header msg)) n in
  set_rec (log_camera_info (_rec n) entity_path msg normalized_timestamp) n.

(** A message as roscpp hands it to the callback of its topic. *)
Inductive Message : Type :=
  | ImageMsg (msg : Image)
  | ImuMsg (msg : Imu)
  | PoseStampedMsg (msg : PoseStamped)
  | TFMessageMsg (msg : TFMessage)
  | OdometryMsg (msg : Odometry)
  | CameraInfoMsg (msg : CameraInfo).

(** The header time of a message; for the transform list, of its first
    entry. *)
Definition header_stamp (m : Message) : option double :=
  match m with
  | ImageMsg msg => Some (stamp (img_header msg))
  | ImuMsg msg => Some (stamp (imu_header msg))
  | PoseStampedMsg msg => Some (stamp (ps_header msg))
  | TFMessageMsg msg => (λ e, stamp (ts_header e)) <$> transforms msg !! 0%nat
  | OdometryMsg msg => Some (stamp (odom_header msg))
  | CameraInfoMsg msg => Some (stamp (ci_header msg))
  end.

(** Running a subscriber's callback on a message of its type; roscpp never
    delivers another type to it. *)
Definition run_callback (cb : Callback) (m : Message) (n : RerunLoggerNode)
    : Outcome RerunLoggerNode :=
  match cb, m with
  | on_image entity_path lookup_transform, ImageMsg msg =>
      image_callback entity_path lookup_transform msg n
  | on_imu entity_path, ImuMsg msg => Ok (imu_callback entity_path msg n)
  | on_pose_stamped entity_path, PoseStampedMsg msg =>
      Ok (pose_stamped_callback entity_path msg n)
  | on_tf_message, TFMessageMsg msg => tf_message_callback msg n
  | on_odometry entity_path, OdometryMsg msg => Ok (odometry_callback entity_path msg n)
  | on_camera_info entity_path, CameraInfoMsg msg =>
      Ok (camera_info_callback entity_path msg n)
  | _, _ => Ok n
  end.

Definition matches (cb : Callback) (m : Message) : bool :=
  match cb, m with
  | on_image _ _, ImageMsg _ | on_imu _, ImuMsg _
  | on_pose_stamped _, PoseStampedMsg _ | on_tf_message, TFMessageMsg _
  | on_odometry _, OdometryMsg _ | on_camera_info _, CameraInfoMsg _ => true
  | _, _ => false
  end.

(** [std::map] iterates in key order. *)
Definition in_key_order (m : gmap string string) : list (string * string) :=
  merge_sort (λ a b, String.le a.1 b.1) (map_to_list m).

(** [ROS_WARN_THROTTLE(1.0, ...)]: the line is written when the console's
    own clock is a second or more past the last time this statement wrote
    one.  That clock and the statement's static variable lie outside the
    node, so whether the throttle is open is an input. *)
Definition ROS_WARN_THROTTLE (passes : bool) (line : string) (n : RerunLoggerNode)
    : RerunLoggerNode :=
  if passes then ROS_WARN [line] n else n.

(** The body of the loop of [_update_tf] for one frame; [throttle frame]
    tells whether the throttle is open when the warning for [frame] is due.
    The difference [now - ros::Duration(1.0)] is evaluated inside the [try],
    whose handler takes [tf2::TransformException] only. *)
Definition _update_tf_frame (now : double) (throttle : string → bool)
    (n : RerunLoggerNode) (entry : string * string) : Outcome RerunLoggerNode :=
  let '(frame, entity_path) := entry in
  match _tf_frame_to_parent n !! frame with
  | None => Ok n
  | Some parent =>
      if bool_decide (parent = "") then Ok n
      else
        time ← minus_duration now (dlit 1);
        match _tf_buffer n parent frame time None with
        | Found transform =>
            let '(normalized_timestamp, n) := _normalize_timestamp now n in
            Ok (set_rec (log_transform (_rec n) entity_path transform
                           normalized_timestamp) n)
        | TransformException what =>
            Ok (ROS_WARN_THROTTLE (throttle frame)
                  ("Skipping interpolated logging for " +:+ parent +:+ " -> "
                   +:+ frame +:+ " because " +:+ what) n)
        end
  end.

Fixpoint _update_tf_frames (now : double) (throttle : string → bool)
    (entries : list (string * string)) (n : RerunLoggerNode)
    : Outcome RerunLoggerNode :=
  match entries with
  | [] => Ok n
  | entry :: entries' =>
      n' ← _update_tf_frame now throttle n entry;
      _update_tf_frames now throttle entries' n'
  end.

(** [RerunLoggerNode::_update_tf], visualizer_node.cpp:224, at wall-clock
    time [now]. *)
Definition _update_tf (now : double) (throttle : string → bool) (n : RerunLoggerNode)
    : Outcome RerunLoggerNode :=
  _update_tf_frames now throttle (in_key_order (_tf_frame_to_entity_path n)) n.

(** ** Configuration

    The parsed document, as far as the node's tables and timers depend on
    it: [topic_to_entity_path] and the [tf] section.  The remaining
    sections ([extra_transform3ds], [extra_pinholes], [urdf]) only write
    static rows to the sink. *)
Record TfConfig := {
  update_rate : option double;
  tree : option YamlNode;
}.

Record Config := {
  topic_to_entity_path : option (gmap string string);
  tf : option TfConfig;
}.

(** [RerunLoggerNode::_read_yaml_config], visualizer_node.cpp:89-100 and
    154-166.  [begin()->first] of a tree without entries dereferences the
    end iterator. *)
Definition _read_yaml_config (config : Config) (n : RerunLoggerNode)
    : Outcome RerunLoggerNode :=
  let topics := default (_topic_to_entity_path n) (topic_to_entity_path config) in
  let tables := {| ft_entity_path := _tf_frame_to_entity_path n;
                   ft_parent := _tf_frame_to_parent n |} in
  '(rate, root, tables) ←
    match tf config with
    | None => Ok (_tf_fixed_rate n, _root_frame n, tables)
    | Some tf =>
        let rate := default (_tf_fixed_rate n) (update_rate tf) in
        match tree tf with
        | None => Ok (rate, _root_frame n, tables)
        | Some tree =>
            root ← of_option (fst <$> yaml_items tree !! 0%nat);
            Ok (rate, root, _add_tf_tree tree "" "" tables)
        end
    end;
  Ok {| _topic_to_entity_path := topics;
        _topic_to_subscriber := _topic_to_subscriber n;
        _tf_frame_to_entity_path := ft_entity_path tables;
        _tf_frame_to_parent := ft_parent tables;
        _rec := _rec n;
        _root_frame := root;
        _tf_fixed_rate := rate;
        _tf_buffer := _tf_buffer n;
        _time_offset := _time_offset n;
        _time_offset_initialized := _time_offset_initialized n;
        rosout := rosout n;
        nh_subscribed := nh_subscribed n |}.

(** The members as [_read_yaml_config] finds them.  The class gives
    [_tf_fixed_rate] no initializer and the constructor does not assign it:
    [indeterminate] is the value the member happens to hold.  The transform
    buffer is filled from outside by its listener. *)
Definition members_at_entry (indeterminate : double) (tf_buffer : TfBuffer)
    : RerunLoggerNode :=
  {| _topic_to_entity_path := ∅;
     _topic_to_subscriber := ∅;
     _tf_frame_to_entity_path := ∅;
     _tf_frame_to_parent := ∅;
     _rec := {| rec_timestamp := None; rec_rows := [] |};
     _root_frame := "";
     _tf_fixed_rate := indeterminate;
     _tf_buffer := tf_buffer;
     _time_offset := dlit 0;
     _time_offset_initialized := false;
     rosout := [];
     nh_subscribed := [] |}.

(** [RerunLoggerNode::RerunLoggerNode], visualizer_node.cpp:42. *)
Definition RerunLoggerNode_ctor (indeterminate : double) (tf_buffer : TfBuffer)
    (config : Config) : Outcome RerunLoggerNode :=
  _read_yaml_config config (members_at_entry indeterminate tf_buffer).

(** What a [ros::Timer] runs. *)
Inductive TimerCallback : Type :=
  | run_create_subscribers
  | run_update_tf.

Record Timer := { period : double; on_tick : TimerCallback }.

(** The timers [spin] holds; a default-constructed [ros::Timer] never
    fires. *)
Record Timers := { timer : Timer; tf_timer : option Timer }.

(** [RerunLoggerNode::spin], visualizer_node.cpp:352. *)
Definition spin (n : RerunLoggerNode) : Timers :=
  {| timer := {| period := dlit 0.1; on_tick := run_create_subscribers |};
     tf_timer :=
       if negb (deqb (_tf_fixed_rate n) (dlit 0)) then
         Some {| period := ddiv (dlit 1) (_tf_fixed_rate n);
                 on_tick := run_update_tf |}
       else None |}.

(** What the spinner can run next: the discovery timer fires and the
    master answers with a registry, the sampling timer fires at some
    wall-clock time (with the warning throttle open for some frames), or a
    message arrives on a topic. *)
Inductive Event : Type :=
  | Poll (registry : list TopicInfo)
  | Sample (now : double) (throttle : string → bool)
  | Deliver (topic : string) (m : Message).

(** One event of the spinner.  Only a timer that was created fires, and a
    message reaches the subscriber bound to its topic, if any. *)
Definition dispatch (timers : Timers) (e : Event) (n : RerunLoggerNode)
    : Outcome RerunLoggerNode :=
  match e with
  | Poll registry => _create_subscribers registry n
  | Sample now throttle =>
      match tf_timer timers with
      | Some _ => _update_tf now throttle n
      | None => Ok n
      end
  | Deliver topic m =>
      match _topic_to_subscriber n !! topic with
      | Some sub => run_callback (sub_callback sub) m n
      | None => Ok n
      end
  end.

Fixpoint run (timers : Timers) (events : list Event) (n : RerunLoggerNode)
    : Outcome RerunLoggerNode :=
  match events with
  | [] => Ok n
  | e :: events' =>
      n' ← dispatch timers e n;
      run timers events' n'
  end.

End Node.

(** ** More of [std::string] *)

Module StdString.

(** [s.find(p) == 0]. *)
Fixpoint starts_with (p s : string) : bool :=
  match p, s with
  | EmptyString, _ => true
  | String a p', String b s' => Ascii.eqb a b && starts_with p' s'
  | String _ _, EmptyString => false
  end.

(** [s.find(c, pos)]: index of the first occurrence at or behind [pos],
    [None] for [npos]. *)
Fixpoint find_from (c : ascii) (pos : nat) (s : string) : option nat :=
  match s with
  | EmptyString => None
  | String a s' =>
      match pos with
      | O => if Ascii.eqb a c then Some 0 else S <$> find_from c 0 s'
      | S pos' => S <$> find_from c pos' s'
      end
  end.

(** The first [len] characters, all of them when there are fewer. *)
Fixpoint take (len : nat) (s : string) : string :=
  match len, s with
  | S len', String a s' => String a (take len' s')
  | _, _ => EmptyString
  end.

(** [s.substr(pos)]: [std::out_of_range] when [pos] lies behind the end. *)
Fixpoint substr_from (pos : nat) (s : string) : Outcome string :=
  match pos, s with
  | O, _ => Ok s
  | S pos', String _ s' => substr_from pos' s'
  | S _, EmptyString => Throw "basic_string::substr"
  end.

(** [s.substr(pos, len)]; [len = None] stands for a count that exceeds
    every length, as [npos - 10] does. *)
Definition substr (pos : nat) (len : option nat) (s : string) : Outcome string :=
  rest ← substr_from pos s;
  Ok (match len with Some len => take len rest | None => rest end).

End StdString.

(** ** File references *)

(** [resolve_ros_path], visualizer_node.cpp:22, over the package registry
    [ros::package::getPath], which answers the empty string for a package it
    does not know. *)
Definition resolve_ros_path (getPath : string → string) (path : string)
    : Outcome string :=
  if StdString.starts_with "package://" path then
    package_name ←
      StdString.substr 10
        ((λ slash, slash - 10) <$> StdString.find_from "/" 10 path) path;
    relative_path ← StdString.substr_from (10 + String.length package_name) path;
    let package_path := getPath package_name in
    if decide (package_path = "") then
      Throw ("Could not resolve " +:+ path +:+
             ". Replace with relative / absolute path, source the correct ROS environment, or install " +:+
             package_name +:+ ".")
    else Ok (getPath package_name +:+ relative_path)
  else if StdString.starts_with "file://" path then StdString.substr_from 7 path
  else Ok path.

Section StaticConfig.

Context {double : Type} `{Double double}.

(** ** The static sections of the configuration

    An entry of [extra_transform3ds] and of [extra_pinholes] as yaml-cpp
    hands it over: the numbers are a sequence, and reading an index the
    sequence does not have throws. *)
Record ExtraTransform3D := {
  et_entity_path : string;
  et_transform : list double;
  et_from_parent : bool;
}.

Record ExtraPinhole := {
  ep_entity_path : string;
  ep_image_from_camera : list double;
  ep_width : Z;
  ep_height : Z;
}.

(** [seq[i].as<float>()]. *)
Definition as_float (seq : list double) (i : nat) : Outcome double :=
  match seq !! i with
  | Some x => Ok x
  | None => Throw "bad conversion"
  end.

(** What [log_static] is handed. *)
Inductive StaticArchetype : Type :=
  | StaticTransform3D (translation : list double) (mat3x3 : list double)
                      (from_parent : bool)
  | StaticPinhole (image_from_camera : list double) (width height : Z).

(** The body of the loop over [extra_transform3ds],
    visualizer_node.cpp:102-128. *)
Definition _read_extra_transform3d (e : ExtraTransform3D)
    : Outcome (string * StaticArchetype) :=
  let t := et_transform e in
  t3 ← as_float t 3; t7 ← as_float t 7; t11 ← as_float t 11;
  let translation := [t3; t7; t11] in
  t0 ← as_float t 0; t4 ← as_float t 4; t8 ← as_float t 8;
  t1 ← as_float t 1; t5 ← as_float t 5; t9 ← as_float t 9;
  t2 ← as_float t 2; t6 ← as_float t 6; t10 ← as_float t 10;
  let mat3x3 := [t0; t4; t8; t1; t5; t9; t2; t6; t10] in
  Ok (et_entity_path e, StaticTransform3D translation mat3x3 (et_from_parent e)).

(** The body of the loop over [extra_pinholes],
    visualizer_node.cpp:131-152. *)
Definition _read_extra_pinhole (e : ExtraPinhole)
    : Outcome (string * StaticArchetype) :=
  let k := ep_image_from_camera e in
  k0 ← as_float k 0; k3 ← as_float k 3; k6 ← as_float k 6;
  k1 ← as_float k 1; k4 ← as_float k 4; k7 ← as_float k 7;
  k2 ← as_float k 2; k5 ← as_float k 5; k8 ← as_float k 8;
  let image_from_camera := [k0; k3; k6; k1; k4; k7; k2; k5; k8] in
  Ok (ep_entity_path e, StaticPinhole image_from_camera (ep_width e) (ep_height e)).

(** ** What one tick of the sampler is expected to log

    For a frame of the table: a row at its entity path, stamped with the
    normalized wall-clock time, when the frame has a non-empty parent and the
    buffer knows the transform; a warning when it has one, the buffer does
    not and the throttle is open; nothing otherwise. *)
Context {Mat : Type}.

(** The frames the loop of [_update_tf] does not pass over. *)
Definition parented (n : RerunLoggerNode (double := double) (Mat := Mat))
    (entry : string * string) : bool :=
  match _tf_frame_to_parent n !! entry.1 with
  | None => false
  | Some parent => negb (bool_decide (parent = ""))
  end.

Definition sampled (now : double) (n : RerunLoggerNode (double := double) (Mat := Mat))
    (entry : string * string) : option (Row (Mat := Mat)) :=
  match _tf_frame_to_parent n !! entry.1 with
  | None => None
  | Some parent =>
      if bool_decide (parent = "") then None
      else
        match _tf_buffer n parent entry.1 (dsub now (dlit 1)) None with
        | Found t =>
            Some {| row_entity_path := entry.2;
                    row_timestamp := Some (fst (_normalize_timestamp now n));
                    row_data := Transform3D (translation (transform t))
                                            (rotation (transform t)) |}
        | TransformException _ => None
        end
  end.

Definition sample_warning (now : double) (throttle : string → bool)
    (n : RerunLoggerNode (double := double) (Mat := Mat))
    (entry : string * string) : option string :=
  match _tf_frame_to_parent n !! entry.1 with
  | None => None
  | Some parent =>
      if bool_decide (parent = "") then None
      else
        match _tf_buffer n parent entry.1 (dsub now (dlit 1)) None with
        | Found _ => None
        | TransformException what =>
            if throttle entry.1 then
              Some ("Skipping interpolated logging for " +:+ parent +:+ " -> "
                    +:+ entry.1 +:+ " because " +:+ what)
            else None
        end
  end.

(** Every binding sits under its own topic and has the queue depth the
    factories hard-code. *)
Definition bindings_well_formed (n : RerunLoggerNode (double := double) (Mat := Mat)) : Prop :=
  ∀ topic sub, _topic_to_subscriber n !! topic = Some sub →
    sub_topic sub = topic ∧ sub_queue_size sub = 100%nat.

(** What the configuration document decided. *)
Definition configuration (n : RerunLoggerNode (double := double) (Mat := Mat))
    : gmap string string * gmap string string * gmap string string * string * double :=
  (_topic_to_entity_path n, _tf_frame_to_entity_path n, _tf_frame_to_parent n,
   _root_frame n, _tf_fixed_rate n).

(** The conversion [log_image] asks of cv_bridge for an image. *)
Definition target_encoding (msg : Image (double := double)) : option string :=
  if decide (encoding msg = "16UC1") then None
  else if decide (encoding msg = "32FC1") then None
  else Some "rgb8".

(** Input the node is written for: registries of fully qualified names,
    sampler ticks a second or more into the clock, transform lists that hold
    at least one transform, and images cv_bridge can convert. *)
Definition well_formed_event (toCvCopy : Image → option string → Outcome Mat)
    (e : Event (double := double)) : Prop :=
  match e with
  | Poll registry => Forall (λ info, Str.mem "/" (name info) = true) registry
  | Sample now _ => ¬ dlt now (dlit 1)
  | Deliver _ (TFMessageMsg msg) => transforms msg ≠ []
  | Deliver _ (ImageMsg msg) => ∃ img, toCvCopy msg (target_encoding msg) = Ok img
  | Deliver _ _ => True
  end.

End StaticConfig.

(** ** A concrete node

    Seconds are exact rationals; the decoded matrix is the message paired
    with the encoding asked for; the transform buffer knows one transform,
    from [camera] to [map]. *)
Module Fixtures.

Definition Mat : Type := Image (double := Q) * option string.

(** The encodings that carry colour information. *)
Definition colour_formats : list string :=
  [ "rgb8"; "rgba8"; "rgb16"; "rgba16"; "bgr8"; "bgra8"; "bgr16"; "bgra16";
    "mono8"; "mono16"; "yuv422";
    "bayer_rggb8"; "bayer_bggr8"; "bayer_gbrg8"; "bayer_grbg8";
    "bayer_rggb16"; "bayer_bggr16"; "bayer_gbrg16"; "bayer_grbg16" ].

(** cv_bridge as the node meets it: without a target encoding the image
    is copied as it is; a conversion to a colour encoding is refused for a
    source that carries no colour information. *)
Definition toCvCopy (msg : Image) (target : option string) : Outcome Mat :=
  match target with
  | None => Ok (msg, target)
  | Some dst =>
      if bool_decide (encoding msg ∈ colour_formats) then Ok (msg, target)
      else Throw ("[" +:+ encoding msg +:+ "] is not a color format. but [" +:+ dst +:+
                  "] is. The conversion does not make sense")
  end.

(** The throttle of the sampler's warning, open throughout. *)
Definition throttle_open : string → bool := λ _, true.

Definition vec (x y z : Q) : Vector3 := {| v_x := x; v_y := y; v_z := z |}.

Definition identity : Transform :=
  {| translation := vec 0%Q 0%Q 0%Q;
     rotation := {| q_w := 1%Q; q_x := 0%Q; q_y := 0%Q; q_z := 0%Q |} |}.

Definition stamped (t : Q) (parent child : string) : TransformStamped :=
  {| ts_header := {| stamp := t; frame_id := parent |};
     child_frame_id := child;
     transform := identity |}.

Definition tf_buffer : TfBuffer (double := Q) :=
  λ target source time _,
    if decide (target = "map" ∧ source = "camera")
    then Found (stamped time target source)
    else TransformException "frame does not exist".

Definition tree_ABC : YamlNode :=
  YMap [("A", YMap [("B", YMap [("C", YNull)])])].

Definition overrides : gmap string string := {[ "/odom" := "/world/robot" ]}.

Definition config_plain : Config (double := Q) :=
  {| topic_to_entity_path := Some overrides;
     tf := Some {| update_rate := None;
                   tree := Some (YMap [("map", YMap [("camera", YNull)])]) |} |}.

Definition frames : gmap string string := {[ "camera" := "/map/camera" ]}.

Definition batch : TFMessage :=
  {| transforms := [stamped 5%Q "map" "ghost"; stamped 5%Q "map" "camera"] |}.

Definition depth_image : Image :=
  {| img_header := {| stamp := 7%Q; frame_id := "camera" |};
     img_height := 1; img_width := 2;
     encoding := "16UC1";
     img_data := [0; 4; 1; 2]%N |}.

(** An 8-bit single-channel image that is not declared as [mono8]. *)
Definition raw_image : Image :=
  {| img_header := {| stamp := 7%Q; frame_id := "camera" |};
     img_height := 1; img_width := 2;
     encoding := "8UC1";
     img_data := [0; 255]%N |}.

Definition imu_at (t : Q) : Imu :=
  {| imu_header := {| stamp := t; frame_id := "imu" |};
     linear_acceleration := vec 0%Q 0%Q (981 # 100)%Q |}.

Definition camera_info_at (t : Q) : CameraInfo :=
  {| ci_header := {| stamp := t; frame_id := "camera" |};
     ci_height := 480; ci_width := 640;
     ci_K := λ i, nth i [500; 0; 320; 0; 500; 240; 0; 0; 1]%Q 0%Q |}.

Definition registry : list TopicInfo :=
  [ {| name := "/camera/image_raw"; datatype := "sensor_msgs/Image" |};
    {| name := "/camera/camera_info"; datatype := "sensor_msgs/CameraInfo" |};
    {| name := "/imu/data"; datatype := "sensor_msgs/Imu" |};
    {| name := "/rosout"; datatype := "rosgraph_msgs/Log" |};
    {| name := "/odom"; datatype := "nav_msgs/Odometry" |} ].

Definition no_rows : RecordingStream (double := Q) (Mat := Mat) :=
  {| rec_timestamp := None; rec_rows := [] |}.

Definition blank : RerunLoggerNode (Mat := Mat) :=
  members_at_entry 0%Q tf_buffer.

Definition config_10hz : Config (double := Q) :=
  {| topic_to_entity_path := None;
     tf := Some {| update_rate := Some 10%Q; tree := None |} |}.

(** The node constructed from [config_10hz]. *)
Definition sampling_at_10 : RerunLoggerNode (Mat := Mat) :=
  match RerunLoggerNode_ctor 77%Q tf_buffer config_10hz with
  | Ok n => n
  | _ => blank
  end.

(** The node constructed from [config_plain], and the same node after two
    polls of the registry. *)
Definition constructed : RerunLoggerNode (Mat := Mat) :=
  match RerunLoggerNode_ctor 0%Q tf_buffer config_plain with
  | Ok n => n
  | _ => blank
  end.

Definition polled : RerunLoggerNode (Mat := Mat) :=
  match run toCvCopy (spin constructed) [Poll registry; Poll registry] constructed with
  | Ok n => n
  | _ => blank
  end.

(** The constructed node after one tick of the sampler at 50 s. *)
Definition sampled_at_50 : RerunLoggerNode (Mat := Mat) :=
  match _update_tf 50%Q throttle_open constructed with
  | Ok n => n
  | _ => blank
  end.

(** A camera whose declared width is the largest [uint32_t]. *)
Definition wide_camera_info : CameraInfo :=
  {| ci_header := {| stamp := 130%Q; frame_id := "camera" |};
     ci_height := 480; ci_width := 4294967295;
     ci_K := λ i, nth i [500; 0; 320; 0; 500; 240; 0; 0; 1]%Q 0%Q |}.

End Fixtures.

(** * Properties *)

(** ** Strings *)

Module StrFacts.

(** stdpp keeps [String.append] from unfolding under [simpl]; these are
    its two equations. *)
Lemma append_nil (s : string) : "" +:+ s = s.
Proof. reflexivity. Qed.

Lemma append_cons (a : ascii) (s t : string) :
  String a s +:+ t = String a (s +:+ t).
Proof. reflexivity. Qed.

Ltac unfold_append := rewrite ?append_cons, ?append_nil.

Lemma append_assoc (a b c : string) : (a +:+ b) +:+ c = a +:+ (b +:+ c).
Proof.
  induction a as [|x a IH]; unfold_append; [done | by rewrite IH].
Qed.

Lemma length_append (a b : string) :
  String.length (a +:+ b) = (String.length a + String.length b)%nat.
Proof.
  induction a as [|x a IH]; unfold_append; simpl; [done | by rewrite IH].
Qed.

Lemma mem_append c (a b : string) :
  Str.mem c (a +:+ b) = Str.mem c a || Str.mem c b.
Proof.
  induction a as [|x a IH]; unfold_append; simpl; [done |].
  rewrite IH. by destruct (Ascii.eqb x c).
Qed.

Lemma rfind_None c s : Str.rfind c s = None ↔ Str.mem c s = false.
Proof.
  induction s as [|a s IH]; simpl; [done |].
  destruct (Str.rfind c s) as [i|].
  - split; [done |]. intros [_ Hs]%orb_false_iff.
    apply IH in Hs. discriminate.
  - destruct IH as [IH _]. rewrite IH by done.
    destruct (Ascii.eqb a c); simpl; split; done.
Qed.

Lemma rfind_is_Some c s : is_Some (Str.rfind c s) ↔ Str.mem c s = true.
Proof.
  rewrite <- not_eq_None_Some, rfind_None. by destruct (Str.mem c s).
Qed.

Lemma get_mem_false c s j : Str.mem c s = false → String.get j s ≠ Some c.
Proof.
  revert j. induction s as [|b s IH]; intros j; simpl; [by destruct j |].
  intros [Hb Hs]%orb_false_iff. destruct j as [|j]; [|by apply IH].
  intros [= ->]. by rewrite Ascii.eqb_refl in Hb.
Qed.

(** The index [rfind] answers holds the character, and nothing behind it
    does. *)
Lemma rfind_Some c s i :
  Str.rfind c s = Some i →
  String.get i s = Some c ∧
  ∀ j, (i < j)%nat → String.get j s ≠ Some c.
Proof.
  revert i. induction s as [|a s IH]; intros i; simpl; [done |].
  destruct (Str.rfind c s) as [k|] eqn:Hk.
  - intros [= <-]. destruct (IH k eq_refl) as [Hget Hlast]. split; [done |].
    intros [|j] Hj; [lia |]. apply Hlast. lia.
  - destruct (Ascii.eqb_spec a c) as [->|Hne]; [|done].
    intros [= <-]. split; [done |].
    intros [|j] Hj; [lia |].
    apply get_mem_false. by apply rfind_None.
Qed.

Lemma rfind_append_sep c (a b : string) :
  Str.mem c b = false →
  Str.rfind c (a +:+ String c b) = Some (String.length a).
Proof.
  intros Hb. induction a as [|x a IH]; unfold_append; simpl.
  - apply rfind_None in Hb. by rewrite Hb, Ascii.eqb_refl.
  - by rewrite IH.
Qed.

Lemma length_replace lo hi old new s :
  String.length (Str.replace lo hi old new s) = String.length s.
Proof.
  revert lo hi. induction s as [|a s IH]; intros lo hi; simpl; [done |].
  destruct lo, hi; simpl; by rewrite ?IH.
Qed.

(** [std::replace] rewrites the matching characters of the range and none
    else. *)
Lemma get_replace lo hi old new s i :
  String.get i (Str.replace lo hi old new s) =
  (λ a, if decide ((lo ≤ i < hi)%nat ∧ a = old) then new else a) <$> String.get i s.
Proof.
  revert lo hi i. induction s as [|a s IH]; intros lo hi i; simpl; [done |].
  destruct lo as [|lo], hi as [|hi], i as [|i]; simpl; rewrite ?IH;
    try destruct (Ascii.eqb_spec a old); try destruct (String.get i s); simpl;
    repeat case_decide; try done; exfalso; naive_solver lia.
Qed.

Lemma replace_nothing lo old new s : Str.replace lo 0 old new s = s.
Proof. destruct s; [done |]. by destruct lo. Qed.

Lemma replace_segment old new (seg tail : string) n :
  Str.mem old seg = false →
  Str.replace 0 (String.length seg + n) old new (seg +:+ tail) =
  seg +:+ Str.replace 0 n old new tail.
Proof.
  induction seg as [|a seg IH]; intros Hmem; unfold_append; simpl in *; [done |].
  apply orb_false_iff in Hmem as [Ha Hmem]. by rewrite Ha, IH.
Qed.

(** Replacing over a whole prefix that holds the old character only as a
    separator of its segments turns one gluing into the other. *)
Lemma replace_concat old new (pre : list string) (rest : string) :
  Forall (λ seg, Str.mem old seg = false) pre →
  Str.replace 0 (String.length (String.concat (String old "") pre)) old new
    (String.concat (String old "") pre +:+ rest) =
  String.concat (String new "") pre +:+ rest.
Proof.
  induction 1 as [|seg pre Hmem Hpre IH]; simpl.
  - apply replace_nothing.
  - destruct pre as [|seg' pre].
    + replace (String.length seg) with (String.length seg + 0)%nat by lia.
      by rewrite replace_segment, replace_nothing.
    + rewrite length_append, !append_assoc, replace_segment by done.
      f_equal. unfold_append. simpl.
      rewrite Ascii.eqb_refl. f_equal. apply IH.
Qed.

Lemma concat_snoc sep (pre : list string) (l : string) :
  pre ≠ [] →
  String.concat sep (pre ++ [l]) = String.concat sep pre +:+ sep +:+ l.
Proof.
  induction pre as [|x pre IH]; [done |]. intros _.
  destruct pre as [|y pre]; [done |].
  change (String.concat sep ((x :: y :: pre) ++ [l]))
    with (x +:+ sep +:+ String.concat sep ((y :: pre) ++ [l])).
  rewrite IH by done.
  change (String.concat sep (x :: y :: pre))
    with (x +:+ sep +:+ String.concat sep (y :: pre)).
  by rewrite !append_assoc.
Qed.

Lemma substring_prefix (a b : string) :
  String.substring 0 (String.length a) (a +:+ b) = a.
Proof.
  induction a as [|x a IH]; unfold_append; simpl.
  - by destruct b.
  - by rewrite IH.
Qed.

End StrFacts.

(** ** Entity path resolution *)

Section Resolver.

Import StrFacts.

Lemma parent_entity_path_append (a l : string) :
  Str.mem "/" l = false →
  parent_entity_path (a +:+ "/" +:+ l) = a.
Proof.
  intros Hl. unfold parent_entity_path.
  change ("/" +:+ l) with (String "/" l).
  rewrite rfind_append_sep by done. apply substring_prefix.
Qed.

Lemma flatten_topic_is_Some topic :
  is_Some (flatten_topic topic) ↔ Str.mem "/" topic = true.
Proof.
  rewrite <- rfind_is_Some. unfold flatten_topic.
  destruct (Str.rfind "/" topic); split; intros [? ?]; by eauto.
Qed.

(** Character by character: the first character and everything from the
    last ['/'] on are kept, every ['/'] in between becomes ['-']. *)
Lemma flatten_topic_pointwise topic last :
  Str.rfind "/" topic = Some last →
  ∃ flat, flatten_topic topic = Some ("/topics" +:+ flat) ∧
    String.length flat = String.length topic ∧
    ∀ i, String.get i flat =
         (λ a : ascii, if decide ((0 < i < last)%nat ∧ a = "/"%char)
                       then "-"%char else a) <$> String.get i topic.
Proof.
  intros Hlast. unfold flatten_topic. rewrite Hlast.
  destruct (decide (last ≠ 0%nat)) as [Hne|Hzero].
  - eexists. split_and!; [done | apply length_replace |].
    intros i. rewrite get_replace.
    by destruct (String.get i topic).
  - exists topic. split_and!; [done..|]. intros i.
    destruct (String.get i topic); simpl; [|done].
    by rewrite decide_False by lia.
Qed.

(** On a topic given by its segments the code computes what the
    specification words. *)
Lemma flatten_topic_segments (segs : list string) :
  segs ≠ [] →
  Forall (λ seg, Str.mem "/" seg = false) segs →
  flatten_topic (topic_of_segments segs) = Some (flattened_segments segs).
Proof.
  intros Hne Hfree.
  destruct (exists_last Hne) as (pre & l & ->).
  apply Forall_app in Hfree as [Hpre Hl]. apply Forall_inv in Hl.
  unfold flatten_topic, topic_of_segments, flattened_segments.
  rewrite removelast_last, last_last.
  destruct pre as [|p pre].
  - simpl. rewrite append_cons, append_nil. simpl.
    apply rfind_None in Hl. by rewrite Hl.
  - rewrite concat_snoc by done.
    set (body := String.concat "/" (p :: pre)).
    assert (Hrf : Str.rfind "/" ("/" +:+ body +:+ "/" +:+ l) =
                  Some (S (String.length body))).
    { rewrite <- append_assoc. change ("/" +:+ l) with (String "/" l).
      rewrite rfind_append_sep by done.
      by rewrite append_cons, append_nil. }
    rewrite Hrf. cbv zeta. rewrite decide_True by done.
    f_equal. rewrite (append_cons "/" "" (body +:+ _)), append_nil.
    simpl Str.replace. subst body.
    rewrite (replace_concat "/" "-" (p :: pre) ("/" +:+ l)) by done.
    done.
Qed.

Lemma resolve_override tbl topic p :
  tbl !! topic = Some p → _resolve_entity_path tbl topic = Some p.
Proof. unfold _resolve_entity_path. by intros ->. Qed.

Lemma resolve_fallback tbl topic :
  tbl !! topic = None → _resolve_entity_path tbl topic = flatten_topic topic.
Proof. unfold _resolve_entity_path. by intros ->. Qed.

End Resolver.

(** C1.  The resolver is total on topic names, which are fully qualified
    and so hold a ['/']: it returns a path for every one of them.  A topic
    found in the override table resolves to the configured path, whatever its
    shape.  Every other topic name resolves to ["/topics"] followed by the
    topic with its first character, the leading ['/'], and everything from
    its last ['/'] on kept and every ['/'] in between turned into ['-']; on a
    topic written ["/" seg1 "/" ... "/" segn] this is
    ["/topics/" seg1 "-" ... "/" segn].  In particular
    ["/one/two/three/four"], ["/single"] and ["/a"] resolve to
    ["/topics/one-two-three/four"], ["/topics/single"] and ["/topics/a"]. *)
Theorem resolve_entity_path_spec (tbl : gmap string string) :
  (∀ topic, Str.mem "/" topic = true → is_Some (_resolve_entity_path tbl topic)) ∧
  (∀ topic p, tbl !! topic = Some p → _resolve_entity_path tbl topic = Some p) ∧
  (∀ topic, tbl !! topic = None → Str.mem "/" topic = true →
     ∃ last flat,
       Str.rfind "/" topic = Some last ∧
       _resolve_entity_path tbl topic = Some ("/topics" +:+ flat) ∧
       String.length flat = String.length topic ∧
       ∀ i, String.get i flat =
            (λ a : ascii, if decide ((0 < i < last)%nat ∧ a = "/"%char)
                          then "-"%char else a) <$> String.get i topic) ∧
  (∀ segs, tbl !! topic_of_segments segs = None →
     segs ≠ [] → Forall (λ seg, Str.mem "/" seg = false) segs →
     _resolve_entity_path tbl (topic_of_segments segs) =
       Some (flattened_segments segs)) ∧
  (tbl !! "/one/two/three/four" = None →
     _resolve_entity_path tbl "/one/two/three/four" =
       Some "/topics/one-two-three/four") ∧
  (tbl !! "/single" = None →
     _resolve_entity_path tbl "/single" = Some "/topics/single") ∧
  (tbl !! "/a" = None → _resolve_entity_path tbl "/a" = Some "/topics/a").
Proof.
  split_and!.
  - intros topic Hmem. unfold _resolve_entity_path.
    destruct (tbl !! topic) as [p|]; [by eexists |].
    by apply flatten_topic_is_Some.
  - intros topic p. apply resolve_override.
  - intros topic Hnone Hmem.
    apply StrFacts.rfind_is_Some in Hmem as [last Hlast].
    destruct (flatten_topic_pointwise topic last Hlast) as (flat & Hflat & Hlen & Hget).
    exists last, flat. by rewrite resolve_fallback.
  - intros segs Hnone Hne Hfree.
    rewrite resolve_fallback by done. by apply flatten_topic_segments.
  - intros Hnone. by rewrite resolve_fallback.
  - intros Hnone. by rewrite resolve_fallback.
  - intros Hnone. by rewrite resolve_fallback.
Qed.

Lemma resolve_entity_path_spec_witness :
  is_Some (_resolve_entity_path Fixtures.overrides "/camera/image_raw") ∧
  _resolve_entity_path Fixtures.overrides "/odom" = Some "/world/robot" ∧
  _resolve_entity_path Fixtures.overrides
    (topic_of_segments ["camera"; "left"; "image_raw"]) =
    Some "/topics/camera-left/image_raw" ∧
  _resolve_entity_path Fixtures.overrides "/a" = Some "/topics/a".
Proof.
  destruct (resolve_entity_path_spec Fixtures.overrides)
    as (Htotal & Hover & _ & Hsegs & _ & _ & Ha).
  split_and!.
  - apply Htotal. reflexivity.
  - apply Hover. reflexivity.
  - apply (Hsegs ["camera"; "left"; "image_raw"]).
    + reflexivity.
    + discriminate.
    + repeat constructor.
  - apply Ha. reflexivity.
Defined.

(** ** The frame tree *)

Section FrameTree.

Lemma YamlNode_items_ind (P : YamlNode → Prop) :
  P YNull →
  (∀ s, P (YScalar s)) →
  P (YMap []) →
  (∀ frame value rest, P value → P (YMap rest) → P (YMap ((frame, value) :: rest))) →
  ∀ node, P node.
Proof.
  intros Hnull Hscalar Hnil Hcons.
  fix IH 1. intros [| s | kvs]; [exact Hnull | apply Hscalar |].
  induction kvs as [|[frame value] rest IHrest]; [exact Hnil |].
  apply Hcons; [apply IH | exact IHrest].
Qed.

Lemma add_guard value ppath pframe t :
  (if decide (1 ≤ yaml_size value) then _add_tf_tree value ppath pframe t else t) =
  _add_tf_tree value ppath pframe t.
Proof.
  case_decide as Hsize; [done |].
  destruct value as [| s | [|kv kvs]]; simpl in *; [done.. | lia].
Qed.

(** One turn of the loop: the frame is entered, its children are added
    under it, and the loop goes on with the frames that follow. *)
Lemma add_cons frame value rest ppath pframe t :
  _add_tf_tree (YMap ((frame, value) :: rest)) ppath pframe t =
  _add_tf_tree (YMap rest) ppath pframe
    (_add_tf_tree value (ppath +:+ "/" +:+ frame) frame (enter frame ppath pframe t)).
Proof.
  rewrite <- (add_guard value). reflexivity.
Qed.

Lemma frames_of_cons frame value rest :
  frames_of (YMap ((frame, value) :: rest)) =
  frame :: frames_of value ++ frames_of (YMap rest).
Proof. reflexivity. Qed.

Lemma declares_cons frame value rest ppath pframe f p q :
  declares (YMap ((frame, value) :: rest)) ppath pframe f p q ↔
  (f = frame ∧ p = ppath +:+ "/" +:+ frame ∧ q = pframe) ∨
  declares value (ppath +:+ "/" +:+ frame) frame f p q ∨
  declares (YMap rest) ppath pframe f p q.
Proof.
  split.
  - inversion 1 as [kvs pp pf fr v Hin | kvs pp pf outer v fr pa par Hin Hbelow];
      subst; apply elem_of_cons in Hin as [[= -> ->] | Hin]; eauto.
    + right; right. by econstructor.
    + right; right. by eapply declares_below.
  - intros [(-> & -> & ->) | [Hbelow | Hrest]].
    + eapply declares_here. left.
    + eapply declares_below; [left | done].
    + inversion Hrest; subst.
      * eapply declares_here. by right.
      * eapply declares_below; [by right | done].
Qed.

Lemma declares_leaf node ppath pframe f p q :
  yaml_items node = [] → ¬ declares node ppath pframe f p q.
Proof.
  intros Hitems Hdecl.
  destruct Hdecl as [kvs ????? | kvs ???????? ?]; simpl in Hitems; subst;
    by eapply not_elem_of_nil.
Qed.

(** Frames the declaration does not name keep what the tables held. *)
Lemma add_other node : ∀ ppath pframe t f,
  f ∉ frames_of node →
  ft_entity_path (_add_tf_tree node ppath pframe t) !! f = ft_entity_path t !! f ∧
  ft_parent (_add_tf_tree node ppath pframe t) !! f = ft_parent t !! f.
Proof.
  induction node as [| s | | frame value rest IHvalue IHrest] using YamlNode_items_ind;
    intros ppath pframe t f Hf; [done.. |].
  rewrite frames_of_cons in Hf.
  apply not_elem_of_cons in Hf as [Hne Hf].
  apply not_elem_of_app in Hf as [Hvalue Hrest].
  rewrite add_cons.
  destruct (IHrest ppath pframe
              (_add_tf_tree value (ppath +:+ "/" +:+ frame) frame
                 (enter frame ppath pframe t)) f Hrest) as [-> ->].
  destruct (IHvalue (ppath +:+ "/" +:+ frame) frame (enter frame ppath pframe t) f Hvalue)
    as [-> ->].
  simpl. by rewrite !lookup_insert_ne.
Qed.

Lemma declares_frames node ppath pframe f p q :
  declares node ppath pframe f p q → f ∈ frames_of node.
Proof.
  revert ppath pframe.
  induction node as [| s | | frame value rest IHvalue IHrest] using YamlNode_items_ind;
    intros ppath pframe Hdecl; try (by eapply declares_leaf in Hdecl).
  rewrite frames_of_cons.
  apply declares_cons in Hdecl as [(-> & _) | [Hbelow | Hrest]].
  - left.
  - right. apply elem_of_app. left. by eapply IHvalue.
  - right. apply elem_of_app. right. by eapply IHrest.
Qed.

Lemma frames_declares node : ∀ ppath pframe f,
  f ∈ frames_of node → ∃ p q, declares node ppath pframe f p q.
Proof.
  induction node as [| s | | frame value rest IHvalue IHrest] using YamlNode_items_ind;
    intros ppath pframe f Hf; try (by apply elem_of_nil in Hf).
  rewrite frames_of_cons in Hf.
  apply elem_of_cons in Hf as [-> | Hf].
  { do 2 eexists. apply declares_cons. left. done. }
  apply elem_of_app in Hf as [Hf | Hf].
  - destruct (IHvalue (ppath +:+ "/" +:+ frame) frame f Hf) as (p & q & Hd).
    exists p, q. apply declares_cons. right; left. done.
  - destruct (IHrest ppath pframe f Hf) as (p & q & Hd).
    exists p, q. apply declares_cons. right; right. done.
Qed.

(** With every frame named once, a declared frame ends up bound to the path
    and the parent of its declaration. *)
Lemma add_declared node : ∀ ppath pframe t f p q,
  NoDup (frames_of node) →
  declares node ppath pframe f p q →
  ft_entity_path (_add_tf_tree node ppath pframe t) !! f = Some p ∧
  ft_parent (_add_tf_tree node ppath pframe t) !! f = Some q.
Proof.
  induction node as [| s | | frame value rest IHvalue IHrest] using YamlNode_items_ind;
    intros ppath pframe t f p q Hnodup Hdecl; try (by eapply declares_leaf in Hdecl).
  rewrite frames_of_cons in Hnodup.
  apply NoDup_cons in Hnodup as [Hfresh Hnodup].
  apply NoDup_app in Hnodup as (Hnd_value & Hdisjoint & Hnd_rest).
  apply not_elem_of_app in Hfresh as [Hfresh_value Hfresh_rest].
  rewrite add_cons.
  apply declares_cons in Hdecl as [(-> & -> & ->) | [Hbelow | Hrest]].
  - destruct (add_other (YMap rest) ppath pframe
                (_add_tf_tree value (ppath +:+ "/" +:+ frame) frame
                   (enter frame ppath pframe t)) frame Hfresh_rest) as [-> ->].
    destruct (add_other value (ppath +:+ "/" +:+ frame) frame
                (enter frame ppath pframe t) frame Hfresh_value) as [-> ->].
    simpl. by rewrite !lookup_insert_eq.
  - assert (Hf : f ∉ frames_of (YMap rest)).
    { apply Hdisjoint. by eapply declares_frames. }
    destruct (add_other (YMap rest) ppath pframe
                (_add_tf_tree value (ppath +:+ "/" +:+ frame) frame
                   (enter frame ppath pframe t)) f Hf) as [-> ->].
    by apply IHvalue.
  - by apply IHrest.
Qed.

(** Entries are never lost: whatever the tables bind stays bound. *)
Lemma add_keeps node : ∀ ppath pframe t f,
  is_Some (ft_entity_path t !! f) ∧ is_Some (ft_parent t !! f) →
  is_Some (ft_entity_path (_add_tf_tree node ppath pframe t) !! f) ∧
  is_Some (ft_parent (_add_tf_tree node ppath pframe t) !! f).
Proof.
  induction node as [| s | | frame value rest IHvalue IHrest] using YamlNode_items_ind;
    intros ppath pframe t f Hf; [done.. |].
  rewrite add_cons. apply IHrest, IHvalue. simpl.
  rewrite !lookup_insert_is_Some. destruct (decide (frame = f)); naive_solver.
Qed.

(** Every declared frame becomes an entry, whether it has children or not
    and whether or not its name is declared again elsewhere. *)
Lemma add_entry node : ∀ ppath pframe t f p q,
  declares node ppath pframe f p q →
  is_Some (ft_entity_path (_add_tf_tree node ppath pframe t) !! f) ∧
  is_Some (ft_parent (_add_tf_tree node ppath pframe t) !! f).
Proof.
  induction node as [| s | | frame value rest IHvalue IHrest] using YamlNode_items_ind;
    intros ppath pframe t f p q Hdecl; try (by eapply declares_leaf in Hdecl).
  rewrite add_cons.
  apply declares_cons in Hdecl as [(-> & -> & ->) | [Hbelow | Hrest]].
  - apply add_keeps, add_keeps. simpl. by rewrite !lookup_insert_eq.
  - apply add_keeps. by eapply IHvalue.
  - by eapply IHrest.
Qed.

(** The parent recorded for a frame is the context's parent when the frame
    stands at the top of the declaration, and the name of a declared frame
    otherwise. *)
Lemma declares_parent node ppath pframe f p q :
  declares node ppath pframe f p q →
  (f ∈ (yaml_items node).*1 ∧ q = pframe) ∨ q ∈ frames_of node.
Proof.
  revert ppath pframe.
  induction node as [| s | | frame value rest IHvalue IHrest] using YamlNode_items_ind;
    intros ppath pframe Hdecl; try (by eapply declares_leaf in Hdecl).
  rewrite frames_of_cons.
  apply declares_cons in Hdecl as [(-> & -> & ->) | [Hbelow | Hrest]].
  - left. split; [left | done].
  - right. apply IHvalue in Hbelow as [[_ ->] | Hq]; [left |].
    right. apply elem_of_app. by left.
  - apply IHrest in Hrest as [[Hin ->] | Hq].
    + left. split; [by right | done].
    + right. right. apply elem_of_app. by right.
Qed.

(** What the tables bind after the construction was either bound before
    or comes from a declaration of the frame, path and parent together. *)
Lemma add_sound node : ∀ ppath pframe t f q,
  ft_parent (_add_tf_tree node ppath pframe t) !! f = Some q →
  (ft_parent t !! f = Some q ∧
   ft_entity_path (_add_tf_tree node ppath pframe t) !! f = ft_entity_path t !! f) ∨
  (∃ p, declares node ppath pframe f p q ∧
        ft_entity_path (_add_tf_tree node ppath pframe t) !! f = Some p).
Proof.
  induction node as [| s | | frame value rest IHvalue IHrest] using YamlNode_items_ind;
    intros ppath pframe t f q; try (by left).
  rewrite add_cons. intros Hq.
  apply IHrest in Hq as [[Hq Hpath] | (p & Hdecl & Hpath)].
  - apply IHvalue in Hq as [[Hq Hpath'] | (p & Hdecl & Hpath')].
    + simpl in Hq, Hpath'. rewrite Hpath, Hpath'.
      destruct (decide (frame = f)) as [->|Hne].
      * rewrite lookup_insert_eq in Hq. injection Hq as <-.
        right. eexists. split; [|apply lookup_insert_eq].
        apply declares_cons. by left.
      * rewrite lookup_insert_ne in Hq by done. left.
        by rewrite lookup_insert_ne.
    + right. exists p. split; [|by rewrite Hpath].
      apply declares_cons. right; by left.
  - right. exists p. split; [|done]. apply declares_cons. right; by right.
Qed.

(** C3.  Built from a nested declaration, the tables bind every declared
    frame, leaf or not; every binding comes from a declaration of the frame
    and holds [parent_path + "/" + frame] and the name of the frame the
    declaration stands under, the children of a frame being added with that
    frame's path and name as their context; where every frame is named once
    the binding is that of the frame's one declaration; where no frame has
    the empty name, a frame that does not stand at the top of the declaration
    has a non-empty parent; and the declaration of [A] above [B] above [C]
    yields [/A] without parent, [/A/B] under [A] and [/A/B/C] under [B]. *)
Theorem add_tf_tree_spec (tree : YamlNode) :
  (∀ f p q, declares tree "" "" f p q →
     is_Some (ft_entity_path (frame_tables tree) !! f) ∧
     is_Some (ft_parent (frame_tables tree) !! f)) ∧
  (∀ f q, ft_parent (frame_tables tree) !! f = Some q →
     ∃ p, declares tree "" "" f p q ∧
          ft_entity_path (frame_tables tree) !! f = Some p) ∧
  (NoDup (frames_of tree) →
   ∀ f p q, declares tree "" "" f p q →
     ft_entity_path (frame_tables tree) !! f = Some p ∧
     ft_parent (frame_tables tree) !! f = Some q) ∧
  (Forall (λ frame, frame ≠ "") (frames_of tree) →
   ∀ f q, ft_parent (frame_tables tree) !! f = Some q →
     f ∉ (yaml_items tree).*1 → q ≠ "") ∧
  (let t := frame_tables (YMap [("A", YMap [("B", YMap [("C", YNull)])])]) in
   ft_entity_path t = {[ "A" := "/A"; "B" := "/A/B"; "C" := "/A/B/C" ]} ∧
   ft_parent t = {[ "A" := ""; "B" := "A"; "C" := "B" ]}).
Proof.
  assert (Hsound : ∀ f q, ft_parent (frame_tables tree) !! f = Some q →
     ∃ p, declares tree "" "" f p q ∧
          ft_entity_path (frame_tables tree) !! f = Some p).
  { intros f q Hq. apply add_sound in Hq as [[Hq _] | Hdecl]; [|done].
    simpl in Hq. by rewrite lookup_empty in Hq. }
  split_and!.
  - intros f p q Hdecl. by eapply add_entry.
  - exact Hsound.
  - intros Hnodup f p q Hdecl. by apply add_declared.
  - intros Hnames f q Hq Htop.
    destruct (Hsound f q Hq) as (p & Hdecl & _).
    apply declares_parent in Hdecl as [[Hin _] | Hin]; [done |].
    rewrite Forall_forall in Hnames. by apply Hnames.
  - cbv zeta. split; vm_compute; reflexivity.
Qed.

End FrameTree.

Lemma add_tf_tree_spec_witness :
  (ft_entity_path (frame_tables Fixtures.tree_ABC) !! "C" = Some "/A/B/C" ∧
   ft_parent (frame_tables Fixtures.tree_ABC) !! "C" = Some "B") ∧
  ∀ q, ft_parent (frame_tables Fixtures.tree_ABC) !! "B" = Some q → q ≠ "".
Proof.
  assert (Hnodup : NoDup (frames_of Fixtures.tree_ABC)).
  { apply (bool_decide_unpack _). vm_compute. exact I. }
  assert (Hnames : Forall (λ frame : string, frame ≠ "") (frames_of Fixtures.tree_ABC)).
  { repeat constructor; discriminate. }
  destruct (add_tf_tree_spec Fixtures.tree_ABC) as (_ & _ & Hdecl & Hparent & _).
  split.
  - apply (Hdecl Hnodup).
    eapply declares_below; [left |].
    eapply declares_below; [left |].
    eapply (declares_here _ "/A/B" "B" "C" YNull). left.
  - intros q Hq. apply (Hparent Hnames "B" q Hq).
    apply (bool_decide_unpack _). vm_compute. exact I.
Defined.

(** Running one bind of [Outcome] without unfolding the node's functions. *)
Ltac outcome_step :=
  lazy beta iota delta [mbind mret Outcome_bind Outcome_ret of_option].

(** ** The timeline *)

Section Timeline.

Context {double : Type} `{Double double} {Mat : Type}.
Implicit Types n : RerunLoggerNode (double := double) (Mat := Mat).

Lemma normalize_first n T0 :
  _time_offset_initialized n = false →
  _normalize_timestamp T0 n = (dlit 0, set_time_offset T0 n).
Proof.
  intros Hinit. unfold _normalize_timestamp. rewrite Hinit. simpl.
  by rewrite dsub_diag.
Qed.

Lemma normalize_later n T0 T1 :
  anchored T0 n → _normalize_timestamp T1 n = (dsub T1 T0, n).
Proof.
  intros [Hinit Hoff]. unfold _normalize_timestamp. rewrite Hinit. simpl.
  by rewrite Hoff.
Qed.

(** The constructor leaves the offset to the first call. *)
Lemma ctor_offset_pending indeterminate (tf_buffer : TfBuffer) (config : Config) n :
  RerunLoggerNode_ctor indeterminate tf_buffer config = Ok n →
  _time_offset_initialized n = false.
Proof.
  unfold RerunLoggerNode_ctor, _read_yaml_config.
  destruct (match tf config with Some _ => _ | None => _ end) as [[[rate root] tables]| |];
    outcome_step; [|done..].
  by intros [= <-].
Qed.

Lemma anchored_set_rec T0 rec n : anchored T0 n → anchored T0 (set_rec rec n).
Proof. done. Qed.

Lemma anchored_ROS_WARN T0 lines n : anchored T0 n → anchored T0 (ROS_WARN lines n).
Proof. done. Qed.

Lemma anchored_bind T0 topic sub n :
  anchored T0 n → anchored T0 (bind_subscriber topic sub n).
Proof. done. Qed.

Lemma anchored_create_for T0 info n n' :
  anchored T0 n → _create_subscriber_for info n = Ok n' → anchored T0 n'.
Proof.
  intros Hn. unfold _create_subscriber_for.
  repeat match goal with
         | |- (if ?d then _ else _) = _ → _ => destruct d
         end;
    try (by intros [= <-]);
    unfold _create_image_subscriber, _create_imu_subscriber,
      _create_pose_stamped_subscriber, _create_tf_message_subscriber,
      _create_odometry_subscriber, _create_camera_info_subscriber;
    destruct (_resolve_entity_path _ _); simpl; try done; by intros [= <-].
Qed.

Lemma anchored_create T0 infos : ∀ n n',
  anchored T0 n → _create_subscribers infos n = Ok n' → anchored T0 n'.
Proof.
  induction infos as [|info infos IH]; intros n n' Hn; simpl.
  - by intros [= <-].
  - destruct (_create_subscriber_for info n) as [n1| |] eqn:Hfor; simpl; [|done..].
    intros Hrest. eapply IH; [|done]. by eapply anchored_create_for.
Qed.

Lemma anchored_update_tf_frame T0 now throttle n entry n' :
  anchored T0 n → _update_tf_frame now throttle n entry = Ok n' → anchored T0 n'.
Proof.
  intros Hn. destruct entry as [frame entity_path]. unfold _update_tf_frame.
  destruct (_tf_frame_to_parent n !! frame) as [parent|]; [|by intros [= <-]].
  case_bool_decide; [by intros [= <-] |].
  destruct (minus_duration now (dlit 1)) as [time| |]; outcome_step; [|done..].
  destruct (_tf_buffer n parent frame time None) as [transform|what].
  - rewrite (normalize_later n T0) by done. by intros [= <-].
  - intros [= <-]. unfold ROS_WARN_THROTTLE. by destruct (throttle frame).
Qed.

Lemma anchored_update_tf T0 now throttle n n' :
  anchored T0 n → _update_tf now throttle n = Ok n' → anchored T0 n'.
Proof.
  unfold _update_tf. generalize (in_key_order (_tf_frame_to_entity_path n)).
  intros frames. revert n.
  induction frames as [|entry frames IH]; intros n Hn; simpl.
  - by intros [= <-].
  - destruct (_update_tf_frame now throttle n entry) as [n1| |] eqn:Hframe;
      outcome_step; [|done..].
    apply IH. by eapply anchored_update_tf_frame.
Qed.

Lemma anchored_run_callback T0 toCvCopy cb m n n' :
  anchored T0 n → run_callback toCvCopy cb m n = Ok n' → anchored T0 n'.
Proof.
  intros Hn. destruct cb, m; lazy beta iota delta [run_callback];
    try (by intros [= <-]).
  - unfold image_callback. rewrite (normalize_later n T0) by done.
    destruct (log_image _ _ _ _ _) as [rec| |]; outcome_step; [|done..].
    intros [= <-].
    destruct (negb _ && _); [|done].
    by destruct (_tf_buffer n _ _ _ _).
  - unfold imu_callback. rewrite (normalize_later n T0) by done. by intros [= <-].
  - unfold pose_stamped_callback. rewrite (normalize_later n T0) by done.
    by intros [= <-].
  - unfold tf_message_callback.
    destruct (transforms msg !! 0%nat) as [first|]; outcome_step; [|done].
    rewrite (normalize_later n T0) by done.
    destruct (log_tf_message _ _ _ _) as [[rec warnings]| |]; outcome_step; [|done..].
    by intros [= <-].
  - unfold odometry_callback. rewrite (normalize_later n T0) by done. by intros [= <-].
  - unfold camera_info_callback. rewrite (normalize_later n T0) by done.
    by intros [= <-].
Qed.

Lemma anchored_dispatch T0 toCvCopy timers e n n' :
  anchored T0 n → dispatch toCvCopy timers e n = Ok n' → anchored T0 n'.
Proof.
  intros Hn. destruct e as [registry | now throttle | topic m]; simpl.
  - by apply anchored_create.
  - destruct (tf_timer timers); [by apply anchored_update_tf | by intros [= <-]].
  - destruct (_topic_to_subscriber n !! topic) as [sub|].
    + by apply anchored_run_callback.
    + by intros [= <-].
Qed.

Lemma anchored_run T0 toCvCopy timers events : ∀ n n',
  anchored T0 n → run toCvCopy timers events n = Ok n' → anchored T0 n'.
Proof.
  induction events as [|e events IH]; intros n n' Hn; simpl.
  - by intros [= <-].
  - destruct (dispatch toCvCopy timers e n) as [n1| |] eqn:He; simpl; [|done..].
    intros Hrest. eapply IH; [|done]. by eapply anchored_dispatch.
Qed.

(** C2.  On a node whose offset is not yet captured, the call with raw time
    [T0] returns 0 and captures [T0]; from then on, whatever timers fire and
    whatever messages are delivered, the offset stays [T0], and a call with
    raw time [T1] returns [T1 - T0] and changes nothing; that difference is
    below 0 when [T1] is below [T0]. *)
Theorem normalize_timestamp_spec toCvCopy n T0 :
  _time_offset_initialized n = false →
  ∃ n0,
    _normalize_timestamp T0 n = (dlit 0, n0) ∧
    anchored T0 n0 ∧
    (∀ timers events n1,
       run toCvCopy timers events n0 = Ok n1 →
       anchored T0 n1 ∧
       ∀ T1, _normalize_timestamp T1 n1 = (dsub T1 T0, n1) ∧
             (dlt T1 T0 → dlt (dsub T1 T0) (dlit 0))).
Proof.
  intros Hinit. exists (set_time_offset T0 n).
  split; [by apply normalize_first |]. split; [done |].
  intros timers events n1 Hrun.
  assert (Hn1 : anchored T0 n1).
  { by apply (anchored_run T0 toCvCopy timers events (set_time_offset T0 n)). }
  split; [done |]. intros T1. split.
  - by apply normalize_later.
  - apply dsub_lt.
Qed.

End Timeline.


Lemma normalize_timestamp_spec_witness :
  ∃ n0, _normalize_timestamp 100%Q Fixtures.blank = (0%Q, n0) ∧
        fst (_normalize_timestamp 40%Q n0) = (-60)%Q.
Proof.
  destruct (normalize_timestamp_spec Fixtures.toCvCopy Fixtures.blank 100%Q eq_refl)
    as (n0 & Hfirst & Hanchored & Hlater).
  exists n0. split; [exact Hfirst |].
  destruct (Hlater (spin n0) [] n0 eq_refl) as [_ Hcall].
  destruct (Hcall 40%Q) as [-> _]. reflexivity.
Defined.

(** ** Transcoders *)

Section Transcoders.

Context {double : Type} `{Double double} {Mat : Type}.
Context (toCvCopy : Image (double := double) → option string → Outcome Mat).
Implicit Types rec : RecordingStream (double := double) (Mat := Mat).

Lemma log_tf_entries_spec tbl ts entries : ∀ rec warnings,
  ∃ rec',
    log_tf_entries tbl ts entries (rec, warnings) =
      Ok (rec', warnings ++ omap (tf_warning tbl) entries) ∧
    rec_rows rec' = rec_rows rec ++ omap (tf_row tbl ts) entries.
Proof.
  induction entries as [|entry entries IH]; intros rec warnings.
  - exists rec. simpl. by rewrite !app_nil_r.
  - cbn [log_tf_entries]. unfold log_tf_entry at 1.
    cbn [omap list_omap]. unfold tf_row at 1, tf_warning at 1.
    destruct (tbl !! child_frame_id entry) as [entity_path|] eqn:Hpath.
    + rewrite decide_False by done. outcome_step.
      edestruct IH as (rec' & Hrun & Hrows). exists rec'. split; [exact Hrun |].
      rewrite Hrows. simpl. by rewrite <- app_assoc.
    + rewrite decide_True by done. outcome_step.
      edestruct IH as (rec' & Hrun & Hrows). exists rec'. split; [|exact Hrows].
      rewrite Hrun. by rewrite <- app_assoc.
Qed.

(** C4.  [log_tf_message] always returns: it adds one rigid-transform row
    per entry whose child frame is mapped, at the mapped path and in message
    order, and writes one warning per entry whose child frame is not mapped;
    a batch of one unmapped and one mapped entry adds exactly one row. *)
Theorem log_tf_message_spec tbl rec (msg : TFMessage) ts :
  (∃ rec',
     log_tf_message rec tbl msg ts =
       Ok (rec', omap (tf_warning tbl) (transforms msg)) ∧
     rec_rows rec' = rec_rows rec ++ omap (tf_row (Mat := Mat) tbl ts) (transforms msg)) ∧
  length (omap (tf_row (Mat := Mat) tbl ts) (transforms msg)) =
    length (filter (λ e, is_Some (tbl !! child_frame_id e)) (transforms msg)) ∧
  length (omap (tf_warning tbl) (transforms msg)) =
    length (filter (λ e, tbl !! child_frame_id e = None) (transforms msg)) ∧
  (∀ unmapped mapped entity_path,
     transforms msg = [unmapped; mapped] →
     tbl !! child_frame_id unmapped = None →
     tbl !! child_frame_id mapped = Some entity_path →
     omap (tf_row (Mat := Mat) tbl ts) (transforms msg) =
       [ {| row_entity_path := entity_path;
            row_timestamp := Some ts;
            row_data := Transform3D (translation (transform mapped))
                                    (rotation (transform mapped)) |} ]).
Proof.
  split_and!.
  - unfold log_tf_message.
    destruct (log_tf_entries_spec tbl ts (transforms msg) rec []) as (rec' & Hrun & Hrows).
    by exists rec'.
  - induction (transforms msg) as [|e es IH]; [done |].
    cbn [omap list_omap]. rewrite filter_cons. unfold tf_row at 1.
    destruct (decide _) as [[p Hp]|Hnone].
    + rewrite Hp. simpl. by rewrite IH.
    + apply eq_None_not_Some in Hnone. rewrite Hnone. done.
  - induction (transforms msg) as [|e es IH]; [done |].
    cbn [omap list_omap]. rewrite filter_cons. unfold tf_warning at 1.
    destruct (decide _) as [Hnone|Hsome].
    + rewrite Hnone. simpl. by rewrite IH.
    + destruct (tbl !! child_frame_id e); done.
  - intros unmapped mapped entity_path -> Hun Hmapped.
    cbn [omap list_omap]. unfold tf_row. by rewrite Hun, Hmapped.
Qed.

(** [log_image] passes on what the conversion it asks for does: a matrix
    becomes one row, an exception leaves the function. *)
Lemma log_image_cases rec entity_path (msg : Image) ts :
  match toCvCopy msg (target_encoding msg) with
  | Ok img =>
      ∃ a, log_image toCvCopy rec entity_path msg ts =
             Ok {| rec_timestamp := Some ts;
                   rec_rows := rec_rows rec ++
                     [ {| row_entity_path := entity_path;
                          row_timestamp := Some ts;
                          row_data := a |} ] |} ∧
           (encoding msg = "16UC1" → a = DepthImage (u16 img) (Some 1000%Q)) ∧
           (encoding msg = "32FC1" → a = DepthImage (f32 img) (Some 1%Q)) ∧
           (encoding msg ≠ "16UC1" → encoding msg ≠ "32FC1" → a = ColorImage (u8 img))
  | Throw what => log_image toCvCopy rec entity_path msg ts = Throw what
  | Undefined => log_image toCvCopy rec entity_path msg ts = Undefined
  end.
Proof.
  unfold log_image, target_encoding.
  destruct (decide (encoding msg = "16UC1")) as [H16|H16];
    [|destruct (decide (encoding msg = "32FC1")) as [H32|H32]].
  - destruct (toCvCopy msg None) as [img| |]; outcome_step; [|done..].
    eexists. split_and!; [reflexivity | done | | done].
    intros H32. rewrite H16 in H32. discriminate.
  - destruct (toCvCopy msg None) as [img| |]; outcome_step; [|done..].
    eexists. split_and!; [reflexivity | done..].
  - destruct (toCvCopy msg (Some "rgb8")) as [img| |]; outcome_step; [|done..].
    eexists. split_and!; [reflexivity | done..].
Qed.

Lemma log_image_row rec entity_path (msg : Image) ts rec' :
  log_image toCvCopy rec entity_path msg ts = Ok rec' →
  ∃ a, rec' = {| rec_timestamp := Some ts;
                 rec_rows := rec_rows rec ++
                   [ {| row_entity_path := entity_path;
                        row_timestamp := Some ts;
                        row_data := a |} ] |}.
Proof.
  pose proof (log_image_cases rec entity_path msg ts) as Hcases.
  destruct (toCvCopy msg (target_encoding msg)) as [img| |].
  - destruct Hcases as (a & -> & _). intros [= <-]. by exists a.
  - by rewrite Hcases.
  - by rewrite Hcases.
Qed.

(** C5, amended.  [log_image] asks cv_bridge for one conversion, chosen by
    the declared encoding alone: none for ["16UC1"] and ["32FC1"], to
    ["rgb8"] for every other encoding.  When cv_bridge returns the matrix,
    exactly one row is added, at the given path and timestamp: for
    ["16UC1"] a depth image over a 16-bit buffer with 1000 units to the
    metre, that is a scale of 1/1000; for ["32FC1"] a depth image over a
    32-bit float buffer with scale 1; for any other encoding a colour image
    over the 8-bit buffer of the ["rgb8"] conversion, which is not a depth
    image.  When cv_bridge throws, the exception leaves [log_image] and
    nothing is added. *)
Theorem log_image_spec rec entity_path (msg : Image) ts :
  (target_encoding msg =
     if decide (encoding msg = "16UC1" ∨ encoding msg = "32FC1") then None
     else Some "rgb8") ∧
  (∀ img, toCvCopy msg (target_encoding msg) = Ok img →
     ∃ a,
       log_image toCvCopy rec entity_path msg ts =
         Ok {| rec_timestamp := Some ts;
               rec_rows := rec_rows rec ++
                 [ {| row_entity_path := entity_path;
                      row_timestamp := Some ts;
                      row_data := a |} ] |} ∧
       (encoding msg = "16UC1" →
          a = DepthImage (u16 img) (Some 1000%Q) ∧
          depth_scale a = Some (1 # 1000)%Q) ∧
       (encoding msg = "32FC1" →
          a = DepthImage (f32 img) (Some 1%Q) ∧
          depth_scale a = Some 1%Q) ∧
       (encoding msg ≠ "16UC1" → encoding msg ≠ "32FC1" →
          a = ColorImage (u8 img) ∧
          is_depth a = false ∧ depth_scale a = None)) ∧
  (∀ what, toCvCopy msg (target_encoding msg) = Throw what →
     log_image toCvCopy rec entity_path msg ts = Throw what).
Proof.
  pose proof (log_image_cases rec entity_path msg ts) as Hcases.
  split_and!.
  - unfold target_encoding.
    destruct (decide (encoding msg = "16UC1")) as [H16|H16];
      [|destruct (decide (encoding msg = "32FC1")) as [H32|H32]].
    + by rewrite decide_True by by left.
    + by rewrite decide_True by by right.
    + by rewrite decide_False by by intros [?|?].
  - intros img Himg. rewrite Himg in Hcases.
    destruct Hcases as (a & Hlog & H16 & H32 & Hother).
    exists a. split; [exact Hlog |]. split_and!.
    + intros Henc. by rewrite (H16 Henc).
    + intros Henc. by rewrite (H32 Henc).
    + intros Hn16 Hn32. by rewrite (Hother Hn16 Hn32).
  - intros what Hthrow. by rewrite Hthrow in Hcases.
Qed.

End Transcoders.

Lemma log_tf_message_spec_witness :
  ∃ rec',
    log_tf_message Fixtures.no_rows Fixtures.frames Fixtures.batch 0%Q =
      Ok (rec', ["No entity path for frame_id ghost, skipping"]) ∧
    length (rec_rows rec') = 1%nat.
Proof.
  destruct (log_tf_message_spec Fixtures.frames Fixtures.no_rows Fixtures.batch 0%Q)
    as ((rec' & Hrun & Hrows) & _ & _ & Hbatch).
  exists rec'. split; [exact Hrun |].
  rewrite Hrows.
  rewrite (Hbatch _ _ "/map/camera" eq_refl eq_refl eq_refl). reflexivity.
Defined.

Lemma log_image_spec_witness :
  ∃ a, log_image Fixtures.toCvCopy Fixtures.no_rows "/topics/camera/depth"
         Fixtures.depth_image 0%Q =
         Ok {| rec_timestamp := Some 0%Q;
               rec_rows := [ {| row_entity_path := "/topics/camera/depth";
                                row_timestamp := Some 0%Q;
                                row_data := a |} ] |} ∧
       depth_scale a = Some (1 # 1000)%Q.
Proof.
  destruct (log_image_spec Fixtures.toCvCopy Fixtures.no_rows "/topics/camera/depth"
              Fixtures.depth_image 0%Q) as (_ & Hok & _).
  destruct (Hok (Fixtures.depth_image, None) eq_refl) as (a & Hlog & H16 & _ & _).
  exists a. split.
  - exact Hlog.
  - apply H16. reflexivity.
Defined.

(** C5 as stated fails: an image declared ["8UC1"] is neither of the two
    depth encodings, cv_bridge refuses to convert it to ["rgb8"], and
    [log_image] emits nothing, colour image included. *)
Lemma log_image_unconvertible :
  encoding Fixtures.raw_image ≠ "16UC1" ∧ encoding Fixtures.raw_image ≠ "32FC1" ∧
  log_image Fixtures.toCvCopy Fixtures.no_rows "/topics/camera/image_raw"
    Fixtures.raw_image 0%Q =
    Throw "[8UC1] is not a color format. but [rgb8] is. The conversion does not make sense" ∧
  ¬ ∃ rec', log_image Fixtures.toCvCopy Fixtures.no_rows "/topics/camera/image_raw"
              Fixtures.raw_image 0%Q = Ok rec'.
Proof.
  split_and!; [discriminate | discriminate | reflexivity |].
  intros [rec' Hrec']. vm_compute in Hrec'. discriminate.
Qed.

(** ** Subscriptions *)

Section Subscriptions.

Context {double : Type} `{Double double} {Mat : Type}.
Implicit Types n : RerunLoggerNode (double := double) (Mat := Mat).

Import StrFacts.

(** C6.  A camera-intrinsics topic that is not overridden is bound to the
    parent of the path the fallback gives it: for a topic
    ["/" seg1 "/" ... "/" segn "/" last] that is ["/topics/" seg1 "-" ... "-" segn].
    With neither topic overridden, ["/camera/image_raw"] is bound to
    ["/topics/camera/image_raw"] and ["/camera/camera_info"] to
    ["/topics/camera"]. *)
Theorem camera_info_entity_path_spec n topic :
  _topic_to_entity_path n !! topic = None →
  _create_camera_info_subscriber topic n =
    (entity_path ← of_option (flatten_topic topic);
     Ok {| sub_topic := topic; sub_queue_size := 100;
           sub_callback := on_camera_info (parent_entity_path entity_path) |}) ∧
  (∀ segs last, topic = topic_of_segments (segs ++ [last]) → segs ≠ [] →
     Forall (λ seg, Str.mem "/" seg = false) (segs ++ [last]) →
     _create_camera_info_subscriber topic n =
       Ok {| sub_topic := topic; sub_queue_size := 100;
             sub_callback := on_camera_info ("/topics/" +:+ String.concat "-" segs) |}) ∧
  (topic = "/camera/camera_info" →
     _create_camera_info_subscriber topic n =
       Ok {| sub_topic := topic; sub_queue_size := 100;
             sub_callback := on_camera_info "/topics/camera" |}) ∧
  (_topic_to_entity_path n !! "/camera/image_raw" = None →
     _create_image_subscriber "/camera/image_raw" n =
       Ok {| sub_topic := "/camera/image_raw"; sub_queue_size := 100;
             sub_callback := on_image "/topics/camera/image_raw" true |}).
Proof.
  intros Hnone.
  assert (Hcreate : _create_camera_info_subscriber topic n =
    (entity_path ← of_option (flatten_topic topic);
     Ok {| sub_topic := topic; sub_queue_size := 100;
           sub_callback := on_camera_info (parent_entity_path entity_path) |})).
  { unfold _create_camera_info_subscriber.
    rewrite resolve_fallback by done.
    by destruct (decide (_topic_to_entity_path n !! topic = None)). }
  split_and!.
  - exact Hcreate.
  - intros segs last -> Hne Hfree. rewrite Hcreate.
    rewrite flatten_topic_segments by (done || by destruct segs).
    outcome_step. do 2 f_equal.
    unfold flattened_segments. rewrite removelast_last, last_last.
    apply Forall_app in Hfree as [_ Hlast]. apply Forall_inv in Hlast.
    destruct segs as [|seg segs]; [done |].
    rewrite <- append_assoc. f_equal. by apply parent_entity_path_append.
  - intros ->. rewrite Hcreate. reflexivity.
  - intros Himage. unfold _create_image_subscriber.
    rewrite resolve_fallback by done. by rewrite bool_decide_eq_true_2 by done.
Qed.

(** One registry entry either leaves the node as it is, because the
    topic is bound already or its type is not supported, or binds the so far
    unbound topic to a subscriber of that topic. *)
Lemma create_for_cases info n n' :
  _create_subscriber_for info n = Ok n' →
  (n' = n ∧ (is_Some (_topic_to_subscriber n !! name info) ∨
             supported (datatype info) = false)) ∨
  (_topic_to_subscriber n !! name info = None ∧
   supported (datatype info) = true ∧
   ∃ sub, sub_topic sub = name info ∧ n' = bind_subscriber (name info) sub n).
Proof.
  unfold _create_subscriber_for.
  destruct (decide (is_Some (_topic_to_subscriber n !! name info))) as [Hbound|Hfree].
  { intros [= <-]. left. by eauto. }
  apply eq_None_not_Some in Hfree.
  unfold supported.
  repeat match goal with
         | |- (if ?d then _ else _) = _ → _ => destruct d as [Htype|?]
         end.
  all: try (rewrite Htype;
    unfold _create_image_subscriber, _create_imu_subscriber,
      _create_pose_stamped_subscriber, _create_tf_message_subscriber,
      _create_odometry_subscriber, _create_camera_info_subscriber;
    destruct (_resolve_entity_path _ _); outcome_step; [|done];
    intros [= <-]; right; split; [done |]; split; [reflexivity |];
    eexists; split; [|reflexivity]; reflexivity).
  intros [= <-]. left. split; [done |]. right.
  apply bool_decide_eq_false. rewrite !elem_of_cons, elem_of_nil. tauto.
Qed.

Lemma create_for_skip info n :
  is_Some (_topic_to_subscriber n !! name info) ∨ supported (datatype info) = false →
  _create_subscriber_for info n = Ok n.
Proof.
  unfold _create_subscriber_for. intros [Hbound|Hunsupported].
  { by rewrite decide_True. }
  destruct (decide (is_Some _)); [done |].
  apply bool_decide_eq_false in Hunsupported.
  rewrite !elem_of_cons, elem_of_nil in Hunsupported.
  repeat (case_decide; [tauto |]). done.
Qed.

(** An entry whose name holds a ['/'] never fails. *)
Lemma create_for_defined info n :
  Str.mem "/" (name info) = true → ∃ n', _create_subscriber_for info n = Ok n'.
Proof.
  intros Hname.
  assert (∃ p, _resolve_entity_path (_topic_to_entity_path n) (name info) = Some p)
    as [p Hp].
  { unfold _resolve_entity_path.
    destruct (_topic_to_entity_path n !! name info); [by eauto |].
    by apply flatten_topic_is_Some. }
  unfold _create_subscriber_for,
    _create_image_subscriber, _create_imu_subscriber,
    _create_pose_stamped_subscriber, _create_tf_message_subscriber,
    _create_odometry_subscriber, _create_camera_info_subscriber.
  rewrite Hp. repeat (case_decide; [by eauto |]). by eauto.
Qed.

Lemma bind_keeps topic sub n other bound :
  _topic_to_subscriber n !! topic = None →
  _topic_to_subscriber n !! other = Some bound →
  _topic_to_subscriber (bind_subscriber topic sub n) !! other = Some bound.
Proof.
  intros Hfree Hbound. simpl. rewrite lookup_insert_ne; [done |].
  intros ->. by rewrite Hfree in Hbound.
Qed.

Lemma create_for_keeps info n n' topic sub :
  _create_subscriber_for info n = Ok n' →
  _topic_to_subscriber n !! topic = Some sub →
  _topic_to_subscriber n' !! topic = Some sub.
Proof.
  intros [[-> _] | (Hfree & _ & new & _ & ->)]%create_for_cases Hbound; [done |].
  by apply bind_keeps.
Qed.

Lemma create_keeps registry : ∀ n n' topic sub,
  _create_subscribers registry n = Ok n' →
  _topic_to_subscriber n !! topic = Some sub →
  _topic_to_subscriber n' !! topic = Some sub.
Proof.
  induction registry as [|info registry IH]; intros n n' topic sub; simpl.
  - by intros [= <-].
  - destruct (_create_subscriber_for info n) as [n1| |] eqn:Hfor; outcome_step; [|done..].
    intros Hrest Hbound. eapply IH; [done |]. by eapply create_for_keeps.
Qed.

(** After the poll every registry entry is bound or of an unsupported
    type. *)
Lemma create_settles registry : ∀ n n',
  _create_subscribers registry n = Ok n' →
  Forall (λ info, is_Some (_topic_to_subscriber n' !! name info) ∨
                  supported (datatype info) = false) registry.
Proof.
  induction registry as [|info registry IH]; intros n n'; simpl; [done |].
  destruct (_create_subscriber_for info n) as [n1| |] eqn:Hfor; outcome_step; [|done..].
  intros Hrest. constructor; [|by eapply IH].
  apply create_for_cases in Hfor as [[-> [[sub Hsub] | Hun]] | (_ & _ & sub & _ & ->)].
  - left. exists sub. by eapply create_keeps.
  - by right.
  - left. exists sub. eapply create_keeps; [done |]. simpl. apply lookup_insert_eq.
Qed.

Lemma create_settled registry n :
  Forall (λ info, is_Some (_topic_to_subscriber n !! name info) ∨
                  supported (datatype info) = false) registry →
  _create_subscribers registry n = Ok n.
Proof.
  induction 1 as [|info registry Hinfo Hrest IH]; simpl; [done |].
  by rewrite create_for_skip.
Qed.

Lemma subscribed_once_bind topic sub n :
  _topic_to_subscriber n !! topic = None → sub_topic sub = topic →
  subscribed_once n → subscribed_once (bind_subscriber topic sub n).
Proof.
  intros Hfree Htopic [Hnodup Hkeys]. split; simpl; rewrite Htopic.
  - apply NoDup_app. split_and!; [done | | apply NoDup_singleton].
    intros other Hin ->%list_elem_of_singleton.
    apply Hkeys in Hin as [? Hin]. by rewrite Hfree in Hin.
  - intros other. rewrite elem_of_app, list_elem_of_singleton, lookup_insert_is_Some, Hkeys.
    destruct (decide (topic = other)); naive_solver.
Qed.

Lemma subscribed_once_create registry : ∀ n n',
  _create_subscribers registry n = Ok n' → subscribed_once n → subscribed_once n'.
Proof.
  induction registry as [|info registry IH]; intros n n'; simpl.
  - by intros [= <-].
  - destruct (_create_subscriber_for info n) as [n1| |] eqn:Hfor; outcome_step; [|done..].
    intros Hrest Hn. eapply IH; [done |].
    apply create_for_cases in Hfor as [[-> _] | (Hfree & _ & sub & Htopic & ->)];
      [done | by apply subscribed_once_bind].
Qed.

Lemma create_defined registry : ∀ n,
  Forall (λ info, Str.mem "/" (name info) = true) registry →
  ∃ n', _create_subscribers registry n = Ok n'.
Proof.
  induction registry as [|info registry IH]; intros n Hnames; simpl; [by eauto |].
  apply Forall_cons in Hnames as [Hname Hnames].
  destruct (create_for_defined info n Hname) as [n1 ->]. outcome_step.
  by apply IH.
Qed.

(** C7.  Over a registry of fully qualified names the poll returns; when
    it returns, every binding the node had is still there and unchanged, a
    second poll over the same registry changes nothing at all, and no topic
    has been subscribed twice if none had been before. *)
Theorem create_subscribers_spec (registry : list TopicInfo) n :
  (Forall (λ info, Str.mem "/" (name info) = true) registry →
   ∃ n', _create_subscribers registry n = Ok n') ∧
  (∀ n', _create_subscribers registry n = Ok n' →
     (∀ topic sub, _topic_to_subscriber n !! topic = Some sub →
                   _topic_to_subscriber n' !! topic = Some sub) ∧
     _create_subscribers registry n' = Ok n' ∧
     (subscribed_once n → subscribed_once n')).
Proof.
  split; [apply create_defined |].
  intros n' Hpoll. split_and!.
  - intros topic sub. by eapply create_keeps.
  - eapply create_settled, create_settles. done.
  - by eapply subscribed_once_create.
Qed.

End Subscriptions.

Lemma camera_info_entity_path_spec_witness :
  _create_camera_info_subscriber "/camera/camera_info" Fixtures.blank =
    Ok {| sub_topic := "/camera/camera_info"; sub_queue_size := 100;
          sub_callback := on_camera_info "/topics/camera" |}.
Proof.
  destruct (camera_info_entity_path_spec Fixtures.blank "/camera/camera_info" eq_refl)
    as (_ & _ & Hcamera & _).
  apply Hcamera. reflexivity.
Defined.

Lemma create_subscribers_spec_witness :
  ∃ n', _create_subscribers Fixtures.registry Fixtures.blank = Ok n' ∧
        _create_subscribers Fixtures.registry n' = Ok n'.
Proof.
  destruct (create_subscribers_spec Fixtures.registry Fixtures.blank) as [Hdefined Hpoll].
  destruct Hdefined as [n' Hn']; [repeat constructor |].
  exists n'. split; [exact Hn' |]. apply (Hpoll n' Hn').
Defined.

(** ** Callbacks *)

Section Callbacks.

Context {double : Type} `{Double double} {Mat : Type}.
Context (toCvCopy : Image (double := double) → option string → Outcome Mat).
Implicit Types n : RerunLoggerNode (double := double) (Mat := Mat).

Lemma normalize_keeps_rec stamp n :
  _rec (snd (_normalize_timestamp stamp n)) = _rec n ∧
  _tf_frame_to_entity_path (snd (_normalize_timestamp stamp n)) =
    _tf_frame_to_entity_path n.
Proof. unfold _normalize_timestamp. by destruct (_time_offset_initialized n). Qed.

Lemma tf_rows_stamped tbl (ts : double) (entries : list TransformStamped) :
  Forall (λ row, row_timestamp row = Some ts) (omap (tf_row (Mat := Mat) tbl ts) entries).
Proof.
  induction entries as [|entry entries IH]; [constructor |].
  cbn [omap list_omap]. unfold tf_row at 1.
  destruct (tbl !! child_frame_id entry); simpl; [by constructor | done].
Qed.

(** Callbacks and the sampler leave the bindings alone. *)
Lemma normalize_bindings stamp n :
  bindings (snd (_normalize_timestamp stamp n)) = bindings n.
Proof. unfold _normalize_timestamp. by destruct (_time_offset_initialized n). Qed.

Lemma run_callback_bindings cb m n n' :
  run_callback toCvCopy cb m n = Ok n' → bindings n' = bindings n.
Proof.
  destruct cb, m; lazy beta iota delta [run_callback]; try (by intros [= <-]).
  - unfold image_callback.
    pose proof (normalize_bindings (stamp (img_header msg)) n) as Hb.
    destruct (_normalize_timestamp (stamp (img_header msg)) n) as [ts n1].
    destruct (log_image _ _ _ _ _) as [rec| |]; outcome_step; [|done..].
    intros [= <-]. rewrite <- Hb. simpl.
    destruct (negb _ && _); [|done]. by destruct (_tf_buffer n1 _ _ _ _).
  - intros [= <-]. unfold imu_callback.
    pose proof (normalize_bindings (stamp (imu_header msg)) n) as Hb.
    by destruct (_normalize_timestamp (stamp (imu_header msg)) n) as [ts n1].
  - intros [= <-]. unfold pose_stamped_callback.
    pose proof (normalize_bindings (stamp (ps_header msg)) n) as Hb.
    by destruct (_normalize_timestamp (stamp (ps_header msg)) n) as [ts n1].
  - unfold tf_message_callback.
    destruct (transforms msg !! 0%nat) as [first|]; outcome_step; [|done].
    pose proof (normalize_bindings (stamp (ts_header first)) n) as Hb.
    destruct (_normalize_timestamp (stamp (ts_header first)) n) as [ts n1].
    destruct (log_tf_message _ _ _ _) as [[rec warnings]| |]; outcome_step; [|done..].
    by intros [= <-].
  - intros [= <-]. unfold odometry_callback.
    pose proof (normalize_bindings (stamp (odom_header msg)) n) as Hb.
    by destruct (_normalize_timestamp (stamp (odom_header msg)) n) as [ts n1].
  - intros [= <-]. unfold camera_info_callback.
    pose proof (normalize_bindings (stamp (ci_header msg)) n) as Hb.
    by destruct (_normalize_timestamp (stamp (ci_header msg)) n) as [ts n1].
Qed.

Lemma update_tf_frame_bindings now throttle n entry n' :
  _update_tf_frame now throttle n entry = Ok n' → bindings n' = bindings n.
Proof.
  destruct entry as [frame entity_path]. unfold _update_tf_frame.
  destruct (_tf_frame_to_parent n !! frame) as [parent|]; [|by intros [= <-]].
  case_bool_decide; [by intros [= <-] |].
  destruct (minus_duration now (dlit 1)) as [time| |]; outcome_step; [|done..].
  destruct (_tf_buffer n parent frame time None) as [transform|what].
  - pose proof (normalize_bindings now n) as Hb.
    destruct (_normalize_timestamp now n) as [ts n1]. by intros [= <-].
  - intros [= <-]. unfold ROS_WARN_THROTTLE. by destruct (throttle frame).
Qed.

Lemma update_tf_bindings now throttle n n' :
  _update_tf now throttle n = Ok n' → bindings n' = bindings n.
Proof.
  unfold _update_tf. generalize (in_key_order (_tf_frame_to_entity_path n)).
  intros frames. revert n.
  induction frames as [|entry frames IH]; intros n; simpl.
  - by intros [= <-].
  - destruct (_update_tf_frame now throttle n entry) as [n1| |] eqn:Hframe;
      outcome_step; [|done..].
    intros Hrest. rewrite (IH _ Hrest). by eapply update_tf_frame_bindings.
Qed.

Lemma subscribed_once_bindings n n' :
  bindings n' = bindings n → subscribed_once n → subscribed_once n'.
Proof. unfold subscribed_once. by intros [= -> ->]. Qed.

(** At any time: from construction on, whatever the timers and the
    deliveries, no topic is subscribed twice. *)
Lemma subscribed_once_run timers events : ∀ n n',
  subscribed_once n → run toCvCopy timers events n = Ok n' → subscribed_once n'.
Proof.
  induction events as [|e events IH]; intros n n' Hn; simpl.
  - by intros [= <-].
  - destruct (dispatch toCvCopy timers e n) as [n1| |] eqn:He; outcome_step; [|done..].
    intros Hrest. eapply IH; [|done].
    destruct e as [registry | now throttle | topic m]; simpl in He.
    + by eapply subscribed_once_create.
    + destruct (tf_timer timers); [|by injection He as <-].
      eapply subscribed_once_bindings; [by eapply update_tf_bindings | done].
    + destruct (_topic_to_subscriber n !! topic) as [sub|].
      * eapply subscribed_once_bindings; [by eapply run_callback_bindings | done].
      * by injection He as <-.
Qed.

Lemma subscribed_once_ctor indeterminate (tf_buffer : TfBuffer) (config : Config) n :
  RerunLoggerNode_ctor indeterminate tf_buffer config = Ok n → subscribed_once n.
Proof.
  unfold RerunLoggerNode_ctor, _read_yaml_config.
  destruct (match tf config with Some _ => _ | None => _ end) as [[[rate root] tables]| |];
    outcome_step; [|done..].
  intros [= <-]. split; simpl.
  - constructor.
  - intros topic. rewrite lookup_empty, elem_of_nil. split; [done | by intros [? ?]].
Qed.

(** On a non-empty list the transform-list callback returns, and the rows
    of the batch carry the normalized header time of the first entry. *)
Lemma tf_message_callback_nonempty (msg : TFMessage) n first rest :
  transforms msg = first :: rest →
  ∃ n', tf_message_callback msg n = Ok n' ∧
        stamped_with (fst (_normalize_timestamp (stamp (ts_header first)) n))
                     (_rec n) (_rec n').
Proof.
  intros Hmsg. unfold tf_message_callback.
  rewrite Hmsg. cbn [lookup list_lookup]. outcome_step.
  destruct (normalize_keeps_rec (stamp (ts_header first)) n) as [Hrec Htbl].
  destruct (_normalize_timestamp (stamp (ts_header first)) n) as [ts n1].
  simpl in Hrec, Htbl. unfold log_tf_message. rewrite Hmsg.
  destruct (log_tf_entries_spec (_tf_frame_to_entity_path n1) ts (first :: rest)
              (_rec n1) []) as (rec' & Hrun & Hrows).
  rewrite Hrun. outcome_step. eexists. split; [done |].
  eexists. split.
  - simpl. rewrite Hrows, Hrec. done.
  - apply tf_rows_stamped.
Qed.

(** C10.  The transform-list callback reads [transforms[0]] before
    anything else: on an empty list the access is out of bounds and the
    callback has no defined result; on a non-empty list it returns, with
    every row of the batch stamped by the normalized header time of the
    first entry. *)
Theorem tf_message_callback_spec (msg : TFMessage) n :
  (transforms msg = [] → tf_message_callback msg n = Undefined) ∧
  (∀ first rest, transforms msg = first :: rest →
     ∃ n', tf_message_callback msg n = Ok n' ∧
           stamped_with (fst (_normalize_timestamp (stamp (ts_header first)) n))
                        (_rec n) (_rec n')).
Proof.
  split.
  - unfold tf_message_callback. by intros ->.
  - intros first rest. apply tf_message_callback_nonempty.
Qed.

(** Every callback but the camera-intrinsics one stamps the rows it adds
    with the normalized header time of its message. *)
Lemma callback_rows_stamped cb m n n' stamp :
  (∀ entity_path, cb ≠ on_camera_info entity_path) →
  matches cb m = true →
  header_stamp m = Some stamp →
  run_callback toCvCopy cb m n = Ok n' →
  stamped_with (fst (_normalize_timestamp stamp n)) (_rec n) (_rec n').
Proof.
  intros Hcb Hmatch Hstamp.
  destruct cb, m; try discriminate; lazy beta iota delta [run_callback];
    simpl in Hstamp.
  - injection Hstamp as <-. unfold image_callback.
    destruct (normalize_keeps_rec (stamp (img_header msg)) n) as [Hrec _].
    destruct (_normalize_timestamp (stamp (img_header msg)) n) as [ts n1].
    simpl in Hrec. simpl fst. rewrite <- Hrec.
    destruct (log_image _ _ _ _ _) as [rec| |] eqn:Hlog; outcome_step; [|done..].
    intros [= <-]. apply log_image_row in Hlog as (a & ->).
    destruct (negb _ && _); [destruct (_tf_buffer n1 _ _ _ _) |]; simpl.
    + eexists. split; [simpl; by rewrite <- app_assoc | by repeat constructor].
    + eexists. split; [reflexivity | by repeat constructor].
    + eexists. split; [reflexivity | by repeat constructor].
  - injection Hstamp as <-. intros [= <-]. unfold imu_callback.
    destruct (normalize_keeps_rec (stamp (imu_header msg)) n) as [Hrec _].
    destruct (_normalize_timestamp (stamp (imu_header msg)) n) as [ts n1].
    simpl in Hrec. simpl fst. rewrite <- Hrec.
    eexists. split.
    + unfold log_imu. simpl. by rewrite <- !app_assoc.
    + by repeat constructor.
  - injection Hstamp as <-. intros [= <-]. unfold pose_stamped_callback.
    destruct (normalize_keeps_rec (stamp (ps_header msg)) n) as [Hrec _].
    destruct (_normalize_timestamp (stamp (ps_header msg)) n) as [ts n1].
    simpl in Hrec. simpl fst. rewrite <- Hrec.
    eexists. split.
    + unfold log_pose_stamped. simpl. by rewrite <- !app_assoc.
    + by repeat constructor.
  - destruct (transforms msg) as [|first rest] eqn:Hmsg; [discriminate |].
    injection Hstamp as <-. intros Hrun.
    destruct (tf_message_callback_nonempty msg n first rest Hmsg)
      as (n'' & Hrun' & Hstamped).
    rewrite Hrun' in Hrun. by injection Hrun as <-.
  - injection Hstamp as <-. intros [= <-]. unfold odometry_callback.
    destruct (normalize_keeps_rec (stamp (odom_header msg)) n) as [Hrec _].
    destruct (_normalize_timestamp (stamp (odom_header msg)) n) as [ts n1].
    simpl in Hrec. simpl fst. rewrite <- Hrec.
    eexists. split; [reflexivity | by repeat constructor].
  - by destruct (Hcb entity_path).
Qed.

(** The camera-intrinsics callback normalizes the header time and then
    logs the row under whatever time the stream was left at. *)
Lemma camera_info_row entity_path (msg : CameraInfo) n :
  ∃ a, rec_rows (_rec (camera_info_callback entity_path msg n)) =
       rec_rows (_rec n) ++
         [ {| row_entity_path := entity_path;
              row_timestamp := rec_timestamp (_rec n);
              row_data := a |} ].
Proof.
  unfold camera_info_callback.
  destruct (normalize_keeps_rec (stamp (ci_header msg)) n) as [Hrec _].
  destruct (_normalize_timestamp (stamp (ci_header msg)) n) as [ts n1].
  simpl in Hrec. rewrite <- Hrec. by eexists.
Qed.

End Callbacks.

Lemma tf_message_callback_spec_witness :
  tf_message_callback {| transforms := [] |} Fixtures.blank = Undefined ∧
  ∃ n', tf_message_callback Fixtures.batch Fixtures.blank = Ok n'.
Proof.
  split.
  - destruct (tf_message_callback_spec {| transforms := [] |} Fixtures.blank)
      as [Hempty _].
    apply Hempty. reflexivity.
  - destruct (tf_message_callback_spec Fixtures.batch Fixtures.blank) as [_ Hbatch].
    destruct (Hbatch _ _ eq_refl) as (n' & Hrun & _).
    exists n'. exact Hrun.
Defined.

(** C8, at the input where the code departs from it.  The node is
    constructed and has polled the registry.  An inertial sample stamped
    100 s arrives, anchors the timeline and is logged at 0; a
    camera-intrinsics message stamped 130 s follows, its normalized time is
    30, and its pinhole row is logged at 0, the time the inertial sample left
    on the stream.  Arriving first, the same message is logged with no
    timestamp at all. *)
Theorem camera_info_row_not_stamped :
  ∃ n : RerunLoggerNode (Mat := Fixtures.Mat),
    RerunLoggerNode_ctor 0%Q Fixtures.tf_buffer Fixtures.config_plain = Ok n ∧
    (∃ n1 n2,
       run Fixtures.toCvCopy (spin n)
         [Poll Fixtures.registry;
          Deliver "/imu/data" (ImuMsg (Fixtures.imu_at 100%Q))] n = Ok n1 ∧
       fst (_normalize_timestamp 130%Q n1) = 30%Q ∧
       run Fixtures.toCvCopy (spin n)
         [Deliver "/camera/camera_info"
            (CameraInfoMsg (Fixtures.camera_info_at 130%Q))] n1 = Ok n2 ∧
       (λ row, (row_entity_path row, row_timestamp row)) <$> rec_rows (_rec n2) =
         [("/topics/imu/data/x", Some 0%Q); ("/topics/imu/data/y", Some 0%Q);
          ("/topics/imu/data/z", Some 0%Q); ("/topics/camera", Some 0%Q)]) ∧
    (∃ n2,
       run Fixtures.toCvCopy (spin n)
         [Poll Fixtures.registry;
          Deliver "/camera/camera_info"
            (CameraInfoMsg (Fixtures.camera_info_at 130%Q))] n = Ok n2 ∧
       (λ row, (row_entity_path row, row_timestamp row)) <$> rec_rows (_rec n2) =
         [("/topics/camera", None)]).
Proof.
  eexists. split; [vm_compute; reflexivity |]. split.
  - do 2 eexists. split; [vm_compute; reflexivity |].
    split; [vm_compute; reflexivity |].
    split; vm_compute; reflexivity.
  - eexists. split; vm_compute; reflexivity.
Qed.

(** ** Timers *)

Section Timers.

Context {double : Type} `{Double double} {Mat : Type}.
Implicit Types n : RerunLoggerNode (double := double) (Mat := Mat).

Lemma spin_tf_timer n :
  tf_timer (spin n) = None ↔ deqb (_tf_fixed_rate n) (dlit 0) = true.
Proof. unfold spin. simpl. by destruct (deqb _ _). Qed.

(** The rate [spin] reads is the configured one when there is one, and the
    member's indeterminate value otherwise. *)
Lemma ctor_rate indeterminate (tf_buffer : TfBuffer) (config : Config) n :
  RerunLoggerNode_ctor (Mat := Mat) indeterminate tf_buffer config = Ok n →
  _tf_fixed_rate n = default indeterminate (tf config ≫= update_rate).
Proof.
  unfold RerunLoggerNode_ctor, _read_yaml_config.
  destruct (tf config) as [[rate tree]|]; simpl.
  - destruct tree as [tree|]; simpl.
    + destruct (yaml_items tree !! 0%nat); simpl; [|done]. by intros [= <-].
    + by intros [= <-].
  - by intros [= <-].
Qed.

(** A configured rate of zero leaves the sampler off. *)
Lemma spin_rate_zero indeterminate (tf_buffer : TfBuffer) (config : Config) n :
  tf config ≫= update_rate = Some (dlit 0) →
  RerunLoggerNode_ctor (Mat := Mat) indeterminate tf_buffer config = Ok n →
  tf_timer (spin n) = None.
Proof.
  intros Hrate Hctor. apply spin_tf_timer.
  rewrite (ctor_rate _ _ _ _ Hctor), Hrate. apply deqb_zero.
Qed.

End Timers.

(** C9, at the input where the code departs from it.  The configuration
    declares a frame tree and no [tf.update_rate].  With 30 in the
    never-assigned member the node starts the sampling timer at 30 Hz and a
    tick of it logs a transform; with 0 there it starts none. *)
Theorem spin_without_update_rate :
  update_rate <$> tf Fixtures.config_plain = Some None ∧
  (∃ n : RerunLoggerNode (Mat := Fixtures.Mat), RerunLoggerNode_ctor 30%Q Fixtures.tf_buffer Fixtures.config_plain = Ok n ∧
        tf_timer (spin n) = Some {| period := (1 # 30)%Q; on_tick := run_update_tf |} ∧
        ∃ n', run Fixtures.toCvCopy (spin n) [Sample 50%Q Fixtures.throttle_open] n = Ok n' ∧
              (λ row, (row_entity_path row, row_timestamp row)) <$> rec_rows (_rec n') =
                [("/map/camera", Some 0%Q)]) ∧
  (∃ n : RerunLoggerNode (Mat := Fixtures.Mat), RerunLoggerNode_ctor 0%Q Fixtures.tf_buffer Fixtures.config_plain = Ok n ∧
        tf_timer (spin n) = None).
Proof.
  split_and!.
  - reflexivity.
  - eexists. split; [vm_compute; reflexivity |].
    split; [vm_compute; reflexivity |].
    eexists. split; vm_compute; reflexivity.
  - eexists. split; vm_compute; reflexivity.
Qed.



(** * Further properties *)

(** ** Paths and file references *)

Section Paths.

Import StrFacts.

Lemma append_empty_r (s : string) : s +:+ "" = s.
Proof. induction s as [|a s IH]; unfold_append; [done | by rewrite IH]. Qed.

Lemma rfind_split c s i :
  Str.rfind c s = Some i →
  ∃ rest, Str.mem c rest = false ∧ s = String.substring 0 i s +:+ String c rest.
Proof.
  revert i. induction s as [|a s IH]; intros i; simpl; [done |].
  destruct (Str.rfind c s) as [k|] eqn:Hk.
  - intros [= <-]. destruct (IH k eq_refl) as (rest & Hrest & Hs).
    exists rest. split; [done |]. unfold_append. by rewrite <- Hs.
  - destruct (Ascii.eqb_spec a c) as [->|Hne]; [|done].
    intros [= <-]. exists s. split; [by apply rfind_None |].
    by destruct s.
Qed.

(** An entity path is its parent, a ['/'] and a last segment without
    ['/']; a path without ['/'] has the empty parent. *)
Theorem parent_entity_path_split (path : string) :
  (Str.mem "/" path = false → parent_entity_path path = "") ∧
  (Str.mem "/" path = true →
   ∃ last, Str.mem "/" last = false ∧
           path = parent_entity_path path +:+ "/" +:+ last ∧
           String.length (parent_entity_path path) < String.length path).
Proof.
  unfold parent_entity_path. split.
  - intros Hmem. apply rfind_None in Hmem. by rewrite Hmem.
  - intros Hmem. apply rfind_is_Some in Hmem as [i Hi]. rewrite Hi.
    destruct (rfind_split _ _ _ Hi) as (rest & Hrest & Hs).
    exists rest. split; [done |]. split; [exact Hs |].
    rewrite Hs at 2. rewrite length_append. simpl. lia.
Qed.

Lemma parent_entity_path_split_witness :
  ∃ last, Str.mem "/" last = false ∧
          "/topics/camera/image_raw" =
            parent_entity_path "/topics/camera/image_raw" +:+ "/" +:+ last.
Proof.
  destruct (parent_entity_path_split "/topics/camera/image_raw") as [_ Hsplit].
  destruct (Hsplit eq_refl) as (last & Hlast & Hpath & _).
  exists last. split; [exact Hlast | exact Hpath].
Defined.

Lemma mem_concat c sep (segs : list string) :
  Str.mem c sep = false →
  Forall (λ seg, Str.mem c seg = false) segs →
  Str.mem c (String.concat sep segs) = false.
Proof.
  intros Hsep. induction 1 as [|seg segs Hseg Hsegs IH]; [done |].
  destruct segs as [|seg' segs]; [done |].
  change (String.concat sep (seg :: seg' :: segs))
    with (seg +:+ sep +:+ String.concat sep (seg' :: segs)).
  by rewrite !mem_append, Hseg, Hsep, IH.
Qed.

(** The fallback is not injective: a topic and the topic whose leading
    segments are already glued with ['-'] get the same entity path. *)
Theorem fallback_collision (tbl : gmap string string) (pre : list string) (last : string) :
  pre ≠ [] →
  Forall (λ seg, Str.mem "/" seg = false) (pre ++ [last]) →
  tbl !! topic_of_segments (pre ++ [last]) = None →
  tbl !! topic_of_segments [String.concat "-" pre; last] = None →
  _resolve_entity_path tbl (topic_of_segments (pre ++ [last])) =
  _resolve_entity_path tbl (topic_of_segments [String.concat "-" pre; last]).
Proof.
  intros Hne Hfree Hnone1 Hnone2.
  rewrite !resolve_fallback by done.
  pose proof Hfree as Hfree'.
  apply Forall_app in Hfree' as [Hpre Hlast]. apply Forall_inv in Hlast.
  rewrite flatten_topic_segments by (done || by destruct pre).
  rewrite flatten_topic_segments.
  - f_equal. unfold flattened_segments. rewrite removelast_last, last_last.
    simpl. by destruct pre.
  - done.
  - repeat constructor; [|done]. by apply mem_concat.
Qed.

Lemma fallback_collision_witness :
  _resolve_entity_path ∅ "/robot/left/image" =
  _resolve_entity_path ∅ "/robot-left/image".
Proof.
  apply (fallback_collision ∅ ["robot"; "left"] "image").
  - discriminate.
  - repeat constructor.
  - reflexivity.
  - reflexivity.
Defined.

Lemma starts_with_append (p s : string) : StdString.starts_with p (p +:+ s) = true.
Proof.
  induction p as [|a p IH]; unfold_append; simpl; [done |].
  by rewrite Ascii.eqb_refl.
Qed.

Lemma starts_with_length (p s : string) :
  StdString.starts_with p s = true → String.length p ≤ String.length s.
Proof.
  revert s. induction p as [|a p IH]; intros [|b s]; simpl; try done; [lia |].
  intros [_ Hp]%andb_true_iff. apply IH in Hp. lia.
Qed.

Lemma substr_from_append (p s : string) :
  StdString.substr_from (String.length p) (p +:+ s) = Ok s.
Proof. induction p as [|a p IH]; unfold_append; simpl; [by destruct s | done]. Qed.

Lemma substr_from_in_range pos (s : string) :
  pos ≤ String.length s →
  ∃ rest, StdString.substr_from pos s = Ok rest ∧
          String.length rest = String.length s - pos.
Proof.
  revert s. induction pos as [|pos IH]; intros s Hpos; simpl.
  - exists s. split; [by destruct s | lia].
  - destruct s as [|a s]; simpl in *; [lia |]. apply IH. lia.
Qed.

Lemma length_take len (s : string) :
  String.length (StdString.take len s) ≤ String.length s.
Proof.
  revert s. induction len as [|len IH]; intros [|a s]; simpl; try lia.
  specialize (IH s). lia.
Qed.

Lemma take_append (a b : string) : StdString.take (String.length a) (a +:+ b) = a.
Proof.
  induction a as [|x a IH]; unfold_append; simpl; [by destruct b | by rewrite IH].
Qed.

Lemma find_from_none c (p s : string) :
  Str.mem c s = false →
  StdString.find_from c (String.length p) (p +:+ s) = None.
Proof.
  intros Hs. induction p as [|a p IH]; unfold_append; simpl.
  - induction s as [|b s IHs]; simpl in *; [done |].
    apply orb_false_iff in Hs as [Hb Hs]. by rewrite Hb, IHs.
  - by rewrite IH.
Qed.

Lemma find_from_sep c (p name rest : string) :
  Str.mem c name = false →
  StdString.find_from c (String.length p) (p +:+ name +:+ String c rest) =
  Some (String.length p + String.length name).
Proof.
  intros Hname. induction p as [|a p IH]; unfold_append; simpl.
  - induction name as [|b name IHn]; unfold_append; simpl in *.
    + by rewrite Ascii.eqb_refl.
    + apply orb_false_iff in Hname as [Hb Hname]. by rewrite Hb, IHn.
  - by rewrite IH.
Qed.

(** A [package://name/rest] reference resolves to the package's directory
    followed by [/rest]; a package the registry does not know raises the
    error that names it. *)
Theorem resolve_ros_path_package getPath (name rest : string) :
  Str.mem "/" name = false →
  rest = "" ∨ (∃ r, rest = String "/" r) →
  resolve_ros_path getPath ("package://" +:+ name +:+ rest) =
    if decide (getPath name = "") then
      Throw ("Could not resolve " +:+ ("package://" +:+ name +:+ rest) +:+
             ". Replace with relative / absolute path, source the correct ROS environment, or install " +:+
             name +:+ ".")
    else Ok (getPath name +:+ rest).
Proof.
  intros Hname Hrest. unfold resolve_ros_path.
  rewrite starts_with_append.
  assert (Hdrop : ∀ x, StdString.substr_from 10 ("package://" +:+ x) = Ok x)
    by exact (substr_from_append "package://").
  assert (Hnone : ∀ x, Str.mem "/" x = false →
            StdString.find_from "/" 10 ("package://" +:+ x) = None)
    by exact (find_from_none "/" "package://").
  assert (Hsep : ∀ r, StdString.find_from "/" 10
                        ("package://" +:+ name +:+ String "/" r) =
                      Some (10 + String.length name))
    by exact (λ r, find_from_sep "/" "package://" name r Hname).
  assert (Hpkg : StdString.substr 10
            ((λ slash, slash - 10) <$>
               StdString.find_from "/" 10 ("package://" +:+ name +:+ rest))
            ("package://" +:+ name +:+ rest) = Ok name).
  { unfold StdString.substr. rewrite Hdrop. outcome_step.
    destruct Hrest as [-> | [r ->]].
    - rewrite append_empty_r, Hnone by done. done.
    - rewrite Hsep. simpl.
      replace (String.length name - 0) with (String.length name) by lia.
      by rewrite take_append. }
  rewrite Hpkg. outcome_step.
  assert (Hrel : StdString.substr_from (10 + String.length name)
                   ("package://" +:+ name +:+ rest) = Ok rest).
  { rewrite <- append_assoc.
    replace (10 + String.length name) with (String.length ("package://" +:+ name))
      by (by rewrite length_append).
    apply substr_from_append. }
  rewrite Hrel. outcome_step. done.
Qed.

Lemma resolve_ros_path_package_witness :
  resolve_ros_path (λ pkg, if decide (pkg = "my_robot") then "/opt/ros/share/my_robot" else "")
    "package://my_robot/urdf/robot.urdf" =
  Ok "/opt/ros/share/my_robot/urdf/robot.urdf".
Proof.
  exact (resolve_ros_path_package
           (λ pkg, if decide (pkg = "my_robot") then "/opt/ros/share/my_robot" else "")
           "my_robot" "/urdf/robot.urdf" eq_refl
           (or_intror (ex_intro _ "urdf/robot.urdf" eq_refl))).
Defined.

Lemma starts_with_split (p s : string) :
  StdString.starts_with p s = true → ∃ tail, s = p +:+ tail.
Proof.
  revert s. induction p as [|a p IH]; intros s; simpl.
  - intros _. exists s. by unfold_append.
  - destruct s as [|b s]; [done |].
    intros [Hab Hp]%andb_true_iff. apply Ascii.eqb_eq in Hab as ->.
    destruct (IH s Hp) as [tail ->]. exists tail. by unfold_append.
Qed.

(** A string up to its first [c], and from there on. *)
Lemma split_at_first c (s : string) :
  ∃ name rest, s = name +:+ rest ∧ Str.mem c name = false ∧
               (rest = "" ∨ ∃ r, rest = String c r).
Proof.
  induction s as [|a s IH].
  - exists "", "". split_and!; [done | done | by left].
  - destruct (Ascii.eqb_spec a c) as [->|Hne].
    + exists "", (String c s). split_and!; [done | done | right; by eexists].
    + destruct IH as (name & rest & -> & Hname & Hrest).
      exists (String a name), rest. split_and!; [by unfold_append | | done].
      simpl. rewrite Hname. by destruct (Ascii.eqb_spec a c).
Qed.

(** The two [substr] calls on a package reference. *)
Lemma package_name_substr (name rest : string) :
  Str.mem "/" name = false →
  rest = "" ∨ (∃ r, rest = String "/" r) →
  StdString.substr 10
    ((λ slash, slash - 10) <$>
       StdString.find_from "/" 10 ("package://" +:+ name +:+ rest))
    ("package://" +:+ name +:+ rest) = Ok name ∧
  StdString.substr_from (10 + String.length name)
    ("package://" +:+ name +:+ rest) = Ok rest.
Proof.
  intros Hname Hrest.
  assert (Hdrop : ∀ x, StdString.substr_from 10 ("package://" +:+ x) = Ok x)
    by exact (substr_from_append "package://").
  assert (Hnone : StdString.find_from "/" 10 ("package://" +:+ name) = None)
    by exact (find_from_none "/" "package://" name Hname).
  assert (Hsep : ∀ r, StdString.find_from "/" 10
                        ("package://" +:+ name +:+ String "/" r) =
                      Some (10 + String.length name))
    by exact (λ r, find_from_sep "/" "package://" name r Hname).
  split.
  - unfold StdString.substr. rewrite Hdrop. outcome_step.
    destruct Hrest as [-> | [r ->]].
    + rewrite append_empty_r, Hnone. done.
    + rewrite Hsep. simpl.
      replace (String.length name - 0) with (String.length name) by lia.
      by rewrite take_append.
  - rewrite <- append_assoc.
    replace (10 + String.length name) with (String.length ("package://" +:+ name))
      by (by rewrite length_append).
    apply substr_from_append.
Qed.

(** A [file://] reference loses its scheme, and any other string that is
    not a package reference passes through unchanged.  No [substr] leaves
    the string.  The only exception [resolve_ros_path] raises is the one for
    an unknown package: the path then reads [package://name] or
    [package://name/...], [getPath] answers the empty string for that very
    [name], and the text names the path and the package. *)
Theorem resolve_ros_path_other getPath (path : string) :
  resolve_ros_path getPath ("file://" +:+ path) = Ok path ∧
  (StdString.starts_with "package://" path = false →
   StdString.starts_with "file://" path = false →
   resolve_ros_path getPath path = Ok path) ∧
  resolve_ros_path getPath path ≠ Undefined ∧
  (∀ what, resolve_ros_path getPath path = Throw what →
     StdString.starts_with "package://" path = true ∧
     ∃ name rest,
       path = "package://" +:+ name +:+ rest ∧
       Str.mem "/" name = false ∧
       (rest = "" ∨ ∃ r, rest = String "/" r) ∧
       getPath name = "" ∧
       what = "Could not resolve " +:+ path +:+
              ". Replace with relative / absolute path, source the correct ROS environment, or install " +:+
              name +:+ ".").
Proof.
  split_and!.
  - unfold resolve_ros_path.
    change (StdString.starts_with "package://" ("file://" +:+ path)) with false.
    rewrite starts_with_append. apply (substr_from_append "file://").
  - intros Hpkg Hfile. unfold resolve_ros_path. by rewrite Hpkg, Hfile.
  - unfold resolve_ros_path.
    destruct (StdString.starts_with "package://" path) eqn:Hpkg.
    + apply starts_with_length in Hpkg. simpl in Hpkg.
      unfold StdString.substr.
      destruct (substr_from_in_range 10 path Hpkg) as (rest & -> & Hlen).
      outcome_step.
      set (name := match _ <$> _ with Some len => StdString.take len rest | None => rest end).
      assert (Hname : String.length name ≤ String.length rest).
      { subst name. destruct (_ <$> _); [apply length_take | done]. }
      destruct (substr_from_in_range (10 + String.length name) path) as (rel & -> & _);
        [lia |].
      outcome_step. by case_decide.
    + destruct (StdString.starts_with "file://" path) eqn:Hfile; [|done].
      apply starts_with_length in Hfile. simpl in Hfile.
      by destruct (substr_from_in_range 7 path Hfile) as (rest & -> & _).
  - intros what. unfold resolve_ros_path.
    destruct (StdString.starts_with "package://" path) eqn:Hpkg.
    + intros Hthrow. split; [done |].
      apply starts_with_split in Hpkg as [tail ->].
      destruct (split_at_first "/" tail) as (name & rest & -> & Hname & Hrest).
      destruct (package_name_substr name rest Hname Hrest) as [Hpackage Hrelative].
      rewrite Hpackage in Hthrow. revert Hthrow. outcome_step.
      rewrite Hrelative. outcome_step.
      case_decide as Hunknown; [|done]. intros [= <-].
      by exists name, rest.
    + destruct (StdString.starts_with "file://" path) eqn:Hfile; [|done].
      apply starts_with_length in Hfile. simpl in Hfile.
      by destruct (substr_from_in_range 7 path Hfile) as (rest & -> & _).
Qed.

Lemma resolve_ros_path_other_witness :
  resolve_ros_path (λ _, "") "meshes/robot.urdf" = Ok "meshes/robot.urdf".
Proof.
  destruct (resolve_ros_path_other (λ _, "") "meshes/robot.urdf") as (_ & Hplain & _).
  apply Hplain; reflexivity.
Defined.

End Paths.

(** ** More on subscriptions *)

Section MoreSubscriptions.

Context {double : Type} `{Double double} {Mat : Type}.
Context (toCvCopy : Image (double := double) → option string → Outcome Mat).
Implicit Types n : RerunLoggerNode (double := double) (Mat := Mat).

Import StrFacts.

(** An image topic and a camera-intrinsics topic that differ in their last
    segment only, neither overridden: the pinhole goes to the parent of the
    image's entity path, which is ["/topics/"] and the shared segments glued
    with ['-']. *)
Theorem sibling_convention n (pre : list string) (image info : string) :
  pre ≠ [] →
  Forall (λ seg, Str.mem "/" seg = false) pre →
  Str.mem "/" image = false → Str.mem "/" info = false →
  _topic_to_entity_path n !! topic_of_segments (pre ++ [image]) = None →
  _topic_to_entity_path n !! topic_of_segments (pre ++ [info]) = None →
  ∃ image_path,
    _create_image_subscriber (topic_of_segments (pre ++ [image])) n =
      Ok {| sub_topic := topic_of_segments (pre ++ [image]); sub_queue_size := 100;
            sub_callback := on_image image_path true |} ∧
    _create_camera_info_subscriber (topic_of_segments (pre ++ [info])) n =
      Ok {| sub_topic := topic_of_segments (pre ++ [info]); sub_queue_size := 100;
            sub_callback := on_camera_info (parent_entity_path image_path) |} ∧
    parent_entity_path image_path = "/topics/" +:+ String.concat "-" pre.
Proof.
  intros Hne Hpre Himage Hinfo Hnone_image Hnone_info.
  assert (Hflat : ∀ last, Str.mem "/" last = false →
            flatten_topic (topic_of_segments (pre ++ [last])) =
              Some (("/topics/" +:+ String.concat "-" pre) +:+ "/" +:+ last)).
  { intros last Hlast. rewrite flatten_topic_segments.
    - unfold flattened_segments. rewrite removelast_last, last_last.
      destruct pre; [done |]. by rewrite append_assoc.
    - by destruct pre.
    - apply Forall_app. split; [done | by constructor]. }
  eexists. split_and!.
  - unfold _create_image_subscriber.
    rewrite resolve_fallback, (Hflat image Himage) by done. outcome_step.
    by rewrite bool_decide_eq_true_2.
  - unfold _create_camera_info_subscriber.
    rewrite resolve_fallback, (Hflat info Hinfo) by done. outcome_step.
    rewrite decide_True by done.
    by rewrite !parent_entity_path_append.
  - by apply parent_entity_path_append.
Qed.

(** The poll binds the registry's topics of a supported type and no
    other: unsupported types are passed over, and nothing outside the
    registry is touched. *)
Theorem create_subscribers_binds (registry : list TopicInfo) : ∀ n n',
  _create_subscribers registry n = Ok n' →
  ∀ topic,
    is_Some (_topic_to_subscriber n' !! topic) ↔
    is_Some (_topic_to_subscriber n !! topic) ∨
    ∃ info, info ∈ registry ∧ name info = topic ∧ supported (datatype info) = true.
Proof.
  intros n n' Hpoll topic. split.
  - revert n n' Hpoll.
    induction registry as [|info registry IH]; intros n n'; simpl.
    { intros [= <-]. by left. }
    destruct (_create_subscriber_for info n) as [n1| |] eqn:Hfor; outcome_step; [|done..].
    intros Hrest Hbound.
    destruct (IH n1 n' Hrest Hbound) as [Hn1 | (info' & Hin & Hname & Hsup)].
    + apply create_for_cases in Hfor as [[-> _] | (Hfree & Hsup & sub & Htopic & ->)];
        [by left |].
      simpl in Hn1. apply lookup_insert_is_Some in Hn1 as [Heq | [_ Hn]]; [|by left].
      right. exists info. split; [left | done].
    + right. exists info'. split; [by right | done].
  - intros [Hbound | (info & Hin & Hname & Hsup)].
    + destruct Hbound as [sub Hsub]. exists sub. by eapply create_keeps.
    + pose proof (create_settles registry n n' Hpoll) as Hall.
      rewrite Forall_forall in Hall.
      destruct (Hall info Hin) as [Hsome | Hun]; [by rewrite <- Hname |].
      by rewrite Hsup in Hun.
Qed.

Lemma create_for_well_formed info n n' :
  _create_subscriber_for info n = Ok n' →
  bindings_well_formed n → bindings_well_formed n'.
Proof.
  unfold _create_subscriber_for.
  repeat match goal with
         | |- (if ?d then _ else _) = _ → _ => destruct d
         end;
    try (by intros [= <-]);
    unfold _create_image_subscriber, _create_imu_subscriber,
      _create_pose_stamped_subscriber, _create_tf_message_subscriber,
      _create_odometry_subscriber, _create_camera_info_subscriber;
    (destruct (_resolve_entity_path _ _); outcome_step; [|done]);
    intros [= <-] Hwf topic sub; simpl;
    (destruct (decide (name info = topic)) as [->|Hne];
     [rewrite lookup_insert_eq; by intros [= <-]
     |rewrite lookup_insert_ne by done; apply Hwf]).
Qed.

Lemma create_well_formed registry : ∀ n n',
  _create_subscribers registry n = Ok n' →
  bindings_well_formed n → bindings_well_formed n'.
Proof.
  induction registry as [|info registry IH]; intros n n'; simpl.
  - by intros [= <-].
  - destruct (_create_subscriber_for info n) as [n1| |] eqn:Hfor; outcome_step; [|done..].
    intros Hrest Hn. eapply IH; [done |]. by eapply create_for_well_formed.
Qed.

Lemma well_formed_bindings n n' :
  bindings n' = bindings n → bindings_well_formed n → bindings_well_formed n'.
Proof. unfold bindings_well_formed. by intros [= -> _]. Qed.

(** From construction on, whatever the timers and the deliveries: every
    binding sits under its own topic with queue depth 100, and no topic has
    been passed twice to [NodeHandle::subscribe]. *)
Theorem bindings_invariant indeterminate (tf_buffer : TfBuffer) (config : Config)
    timers events n n' :
  RerunLoggerNode_ctor indeterminate tf_buffer config = Ok n →
  run toCvCopy timers events n = Ok n' →
  bindings_well_formed n' ∧ subscribed_once n'.
Proof.
  intros Hctor Hrun. split.
  2: { apply (subscribed_once_run toCvCopy timers events n n'); [|done].
       by eapply subscribed_once_ctor. }
  assert (Hn : bindings_well_formed n).
  { revert Hctor. unfold RerunLoggerNode_ctor, _read_yaml_config.
    destruct (match tf config with Some _ => _ | None => _ end)
      as [[[rate root] tables]| |]; outcome_step; [|done..].
    intros [= <-] topic sub. simpl. by rewrite lookup_empty. }
  clear Hctor. revert n n' Hn Hrun.
  induction events as [|e events IH]; intros n n' Hn; simpl.
  - by intros [= <-].
  - destruct (dispatch toCvCopy timers e n) as [n1| |] eqn:He; outcome_step; [|done..].
    intros Hrest. eapply IH; [|done].
    destruct e as [registry | now throttle | topic m]; simpl in He.
    + by eapply create_well_formed.
    + destruct (tf_timer timers); [|by injection He as <-].
      eapply well_formed_bindings; [by eapply update_tf_bindings | done].
    + destruct (_topic_to_subscriber n !! topic) as [sub|].
      * eapply well_formed_bindings; [by eapply run_callback_bindings | done].
      * by injection He as <-.
Qed.

End MoreSubscriptions.

Lemma sibling_convention_witness :
  ∃ image_path,
    _create_image_subscriber "/robot/camera/image_raw" Fixtures.blank =
      Ok {| sub_topic := "/robot/camera/image_raw"; sub_queue_size := 100;
            sub_callback := on_image image_path true |} ∧
    _create_camera_info_subscriber "/robot/camera/camera_info" Fixtures.blank =
      Ok {| sub_topic := "/robot/camera/camera_info"; sub_queue_size := 100;
            sub_callback := on_camera_info (parent_entity_path image_path) |} ∧
    parent_entity_path image_path = "/topics/robot-camera".
Proof.
  apply (sibling_convention Fixtures.blank ["robot"; "camera"] "image_raw" "camera_info").
  - discriminate.
  - repeat constructor.
  - reflexivity.
  - reflexivity.
  - reflexivity.
  - reflexivity.
Defined.

Lemma create_subscribers_binds_witness :
  ∃ n', _create_subscribers Fixtures.registry Fixtures.blank = Ok n' ∧
        is_Some (_topic_to_subscriber n' !! "/odom") ∧
        ¬ is_Some (_topic_to_subscriber n' !! "/rosout").
Proof.
  destruct (create_defined Fixtures.registry Fixtures.blank) as [n' Hn'];
    [repeat constructor |].
  exists n'. split; [exact Hn' |].
  pose proof (create_subscribers_binds Fixtures.registry Fixtures.blank n' Hn') as Hbinds.
  split.
  - apply Hbinds. right.
    exists {| name := "/odom"; datatype := "nav_msgs/Odometry" |}.
    split; [|split; reflexivity].
    unfold Fixtures.registry. do 4 right. left.
  - intros Hbound. apply Hbinds in Hbound as [[sub Hsub] | (info & Hin & Hname & Hsup)].
    + vm_compute in Hsub. discriminate.
    + unfold Fixtures.registry in Hin.
      repeat (apply elem_of_cons in Hin as [-> | Hin]; [discriminate |]).
      by apply elem_of_nil in Hin.
Defined.

Lemma bindings_invariant_witness :
  bindings_well_formed Fixtures.polled ∧ subscribed_once Fixtures.polled.
Proof.
  apply (bindings_invariant Fixtures.toCvCopy 0%Q Fixtures.tf_buffer
           Fixtures.config_plain (spin Fixtures.constructed)
           [Poll Fixtures.registry; Poll Fixtures.registry]
           Fixtures.constructed Fixtures.polled).
  - vm_compute. reflexivity.
  - vm_compute. reflexivity.
Defined.

(** ** More on callbacks and the sampler *)

Section MoreCallbacks.

Context {double : Type} `{Double double} {Mat : Type}.
Context (toCvCopy : Image (double := double) → option string → Outcome Mat).
Implicit Types n : RerunLoggerNode (double := double) (Mat := Mat).

(** Normalizing touches the offset and its flag, nothing else. *)
Lemma normalize_frame stamp n :
  _rec (snd (_normalize_timestamp stamp n)) = _rec n ∧
  rosout (snd (_normalize_timestamp stamp n)) = rosout n ∧
  _tf_buffer (snd (_normalize_timestamp stamp n)) = _tf_buffer n ∧
  configuration (snd (_normalize_timestamp stamp n)) = configuration n.
Proof. unfold _normalize_timestamp. by destruct (_time_offset_initialized n). Qed.

(** Once a call was made, the same raw time normalizes to the same value. *)
Lemma normalize_again stamp n :
  fst (_normalize_timestamp stamp (snd (_normalize_timestamp stamp n))) =
  fst (_normalize_timestamp stamp n).
Proof.
  unfold _normalize_timestamp.
  destruct (_time_offset_initialized n) eqn:Hinit; simpl; by rewrite ?Hinit.
Qed.


Lemma minus_duration_ok (now d : double) :
  ¬ dlt now d → minus_duration now d = Ok (dsub now d).
Proof. intros Hnow. unfold minus_duration. by rewrite decide_False. Qed.

Lemma minus_duration_throws (now d : double) :
  dlt now d → minus_duration now d = Throw "Time is out of dual 32-bit range".
Proof. intros Hnow. unfold minus_duration. by rewrite decide_True. Qed.

(** One frame of the sampler's loop, when it returns, against what is
    expected of it. *)
Lemma update_tf_frame_spec now throttle n entry n1 :
  _update_tf_frame now throttle n entry = Ok n1 →
  rec_rows (_rec n1) = rec_rows (_rec n) ++ option_list (sampled now n entry) ∧
  rosout n1 = rosout n ++ option_list (sample_warning now throttle n entry) ∧
  configuration n1 = configuration n ∧
  _tf_buffer n1 = _tf_buffer n ∧
  fst (_normalize_timestamp now n1) = fst (_normalize_timestamp now n) ∧
  (_time_offset_initialized n = true → anchored (_time_offset n) n1) ∧
  (_time_offset_initialized n = false →
     match sampled now n entry with
     | Some _ => anchored now n1
     | None => _time_offset_initialized n1 = false
     end).
Proof.
  destruct entry as [frame entity_path].
  unfold _update_tf_frame, sampled, sample_warning. cbn [fst snd].
  destruct (_tf_frame_to_parent n !! frame) as [parent|].
  2: { intros [= <-]. rewrite !app_nil_r. split_and!; try done; by intros ->. }
  case_bool_decide.
  { intros [= <-]. rewrite !app_nil_r. split_and!; try done; by intros ->. }
  unfold minus_duration. destruct (decide (dlt now (dlit 1))); outcome_step; [done |].
  destruct (_tf_buffer n parent frame _ None) as [t|what].
  - destruct (normalize_frame now n) as (Hrec & Hout & Hbuf & Hcfg).
    pose proof (normalize_again now n) as Hagain.
    unfold _normalize_timestamp in *.
    destruct (_time_offset_initialized n) eqn:Hinit; simpl in *;
      intros [= <-]; simpl; rewrite ?Hinit; simpl; rewrite ?app_nil_r;
      split_and!; done.
  - intros [= <-]. unfold ROS_WARN_THROTTLE.
    destruct (throttle frame); simpl; rewrite !app_nil_r;
      split_and!; try done; try (by intros ->);
      by destruct (_time_offset_initialized n).
Qed.

Lemma sampled_ext now throttle n n1 entry :
  configuration n1 = configuration n → _tf_buffer n1 = _tf_buffer n →
  fst (_normalize_timestamp now n1) = fst (_normalize_timestamp now n) →
  sampled now n1 entry = sampled now n entry ∧
  sample_warning now throttle n1 entry = sample_warning now throttle n entry.
Proof.
  intros [= _ _ Hparent _ _] Hbuf Hts. unfold sampled, sample_warning.
  by rewrite Hparent, Hbuf, Hts.
Qed.

Lemma update_tf_frames_spec now throttle frames : ∀ n n',
  _update_tf_frames now throttle frames n = Ok n' →
  rec_rows (_rec n') = rec_rows (_rec n) ++ omap (sampled now n) frames ∧
  rosout n' = rosout n ++ omap (sample_warning now throttle n) frames ∧
  configuration n' = configuration n ∧
  (_time_offset_initialized n = true → anchored (_time_offset n) n') ∧
  (_time_offset_initialized n = false →
     if decide (omap (sampled now n) frames = []) then _time_offset_initialized n' = false
     else anchored now n').
Proof.
  induction frames as [|entry frames IH]; intros n n';
    cbn [_update_tf_frames omap list_omap].
  { intros [= <-]. rewrite !app_nil_r. split_and!; try done; by intros ->. }
  destruct (_update_tf_frame now throttle n entry) as [n1| |] eqn:Hframe;
    outcome_step; [|done..].
  intros Hrest.
  destruct (update_tf_frame_spec now throttle n entry n1 Hframe)
    as (Hrows & Hout & Hcfg & Hbuf & Hts & Hinit1 & Hinit0).
  destruct (IH n1 n' Hrest) as (IHrows & IHout & IHcfg & IHinit1 & IHinit0).
  assert (Hext : ∀ e, sampled now n1 e = sampled now n e ∧
                      sample_warning now throttle n1 e = sample_warning now throttle n e).
  { intros e. by apply sampled_ext. }
  assert (Hrows_ext : omap (sampled now n1) frames = omap (sampled now n) frames).
  { apply list_omap_ext. apply Forall_Forall2_diag, Forall_forall.
    intros e _. apply Hext. }
  assert (Hout_ext : omap (sample_warning now throttle n1) frames =
                     omap (sample_warning now throttle n) frames).
  { apply list_omap_ext. apply Forall_Forall2_diag, Forall_forall.
    intros e _. apply Hext. }
  rewrite Hrows_ext in *. rewrite Hout_ext in *.
  split_and!.
  - rewrite IHrows, Hrows. destruct (sampled now n entry); simpl; by rewrite <- app_assoc.
  - rewrite IHout, Hout.
    destruct (sample_warning now throttle n entry); simpl; by rewrite <- app_assoc.
  - by rewrite IHcfg.
  - intros Hinit. destruct (Hinit1 Hinit) as [Hflag Hoff].
    specialize (IHinit1 Hflag). by rewrite Hoff in IHinit1.
  - intros Hinit. specialize (Hinit0 Hinit).
    destruct (sampled now n entry) as [row|]; simpl.
    + destruct Hinit0 as [Hflag Hoff].
      specialize (IHinit1 Hflag). by rewrite Hoff in IHinit1.
    + by apply IHinit0.
Qed.

(** A second or more into the clock, every frame of the loop returns. *)
Lemma update_tf_frames_defined now throttle frames : ∀ n,
  ¬ dlt now (dlit 1) → ∃ n', _update_tf_frames now throttle frames n = Ok n'.
Proof.
  induction frames as [|[frame entity_path] frames IH]; intros n Hnow;
    cbn [_update_tf_frames].
  - by eexists.
  - assert (∃ n1, _update_tf_frame now throttle n (frame, entity_path) = Ok n1)
      as [n1 ->].
    { unfold _update_tf_frame.
      destruct (_tf_frame_to_parent n !! frame) as [parent|]; [|by eexists].
      case_bool_decide; [by eexists |].
      rewrite minus_duration_ok by done. outcome_step.
      destruct (_tf_buffer n parent frame _ None); [|by eexists].
      destruct (_normalize_timestamp now n). by eexists. }
    outcome_step. by apply IH.
Qed.

(** Before that, the first frame that has a parent throws. *)
Lemma update_tf_frames_early now throttle frames n :
  dlt now (dlit 1) →
  _update_tf_frames now throttle frames n =
    if forallb (λ entry, negb (parented n entry)) frames then Ok n
    else Throw "Time is out of dual 32-bit range".
Proof.
  intros Hnow. induction frames as [|[frame entity_path] frames IH];
    cbn [_update_tf_frames forallb]; [done |].
  unfold _update_tf_frame, parented at 1. cbn [fst].
  destruct (_tf_frame_to_parent n !! frame) as [parent|]; [|exact IH].
  case_bool_decide; [exact IH |].
  by rewrite minus_duration_throws.
Qed.

(** One tick of the sampler.  A second or more into the clock the tick
    returns, having gone through the frames in key order: a frame with a
    non-empty parent whose transform the buffer knows gets one row at its
    entity path; one whose transform it does not know gets the warning when
    the throttle is open, nothing when it is shut, and holds up nobody; a
    frame without parent gets neither.  The configuration is left alone.
    Before the first second [now - ros::Duration(1.0)] is not a time: the
    tick throws at the first frame that has a parent, and does nothing when
    no frame has one.  All rows of a tick carry the same timestamp, the
    normalized wall-clock time. *)
Theorem update_tf_spec now throttle n :
  let frames := in_key_order (_tf_frame_to_entity_path n) in
  (¬ dlt now (dlit 1) →
     ∃ n', _update_tf now throttle n = Ok n' ∧
           rec_rows (_rec n') = rec_rows (_rec n) ++ omap (sampled now n) frames ∧
           rosout n' = rosout n ++ omap (sample_warning now throttle n) frames ∧
           configuration n' = configuration n) ∧
  (dlt now (dlit 1) →
     _update_tf now throttle n =
       if forallb (λ entry, negb (parented n entry)) frames then Ok n
       else Throw "Time is out of dual 32-bit range") ∧
  (∀ row, row ∈ omap (sampled now n) frames →
     row_timestamp row = Some (fst (_normalize_timestamp now n)) ∧
     ∃ frame parent,
       _tf_frame_to_entity_path n !! frame = Some (row_entity_path row) ∧
       _tf_frame_to_parent n !! frame = Some parent ∧ parent ≠ "") ∧
  length (omap (sampled now n) frames) +
    length (omap (sample_warning now throttle n) frames)
    ≤ size (_tf_frame_to_entity_path n).
Proof.
  cbv zeta. unfold _update_tf. split_and!.
  - intros Hnow.
    destruct (update_tf_frames_defined now throttle
                (in_key_order (_tf_frame_to_entity_path n)) n Hnow) as [n' Hn'].
    exists n'. split; [exact Hn' |].
    by destruct (update_tf_frames_spec now throttle _ n n' Hn') as (? & ? & ? & _).
  - apply update_tf_frames_early.
  - intros row [[frame entity_path] [Hin Hrow]]%list_elem_of_omap.
    unfold in_key_order in Hin. rewrite merge_sort_Permutation in Hin.
    apply elem_of_map_to_list in Hin.
    unfold sampled in Hrow. cbn [fst snd] in Hrow.
    destruct (_tf_frame_to_parent n !! frame) as [parent|] eqn:Hparent; [|done].
    case_bool_decide; [done |].
    destruct (_tf_buffer n parent frame _ None); [|done].
    injection Hrow as <-. split; [done |]. by exists frame, parent.
  - assert (Hlen : length (in_key_order (_tf_frame_to_entity_path n)) =
                   size (_tf_frame_to_entity_path n)).
    { unfold in_key_order. rewrite merge_sort_Permutation. apply length_map_to_list. }
    rewrite <- Hlen. generalize (in_key_order (_tf_frame_to_entity_path n)).
    intros l. induction l as [|e l IH]; [done |].
    cbn [omap list_omap]. unfold sampled at 1, sample_warning at 1.
    destruct (_tf_frame_to_parent n !! e.1); [|simpl; lia].
    case_bool_decide; [simpl; lia |].
    destruct (_tf_buffer n _ _ _ None); [simpl; lia |].
    destruct (throttle e.1); simpl; lia.
Qed.

(** The sampler takes part in anchoring the timeline.  A tick a second or
    more into the clock returns, and of every tick that returns: on a node
    whose offset is still open, a tick that logs nothing leaves it open, and
    a tick that logs at least one transform captures the wall-clock time of
    the tick as the offset; a captured offset is never moved. *)
Theorem update_tf_offset now throttle n :
  (¬ dlt now (dlit 1) → ∃ n', _update_tf now throttle n = Ok n') ∧
  (∀ n', _update_tf now throttle n = Ok n' →
     (_time_offset_initialized n = true → anchored (_time_offset n) n') ∧
     (_time_offset_initialized n = false →
        omap (sampled now n) (in_key_order (_tf_frame_to_entity_path n)) = [] →
        _time_offset_initialized n' = false) ∧
     (_time_offset_initialized n = false →
        omap (sampled now n) (in_key_order (_tf_frame_to_entity_path n)) ≠ [] →
        anchored now n')).
Proof.
  unfold _update_tf. split; [apply update_tf_frames_defined |].
  intros n' Htick.
  destruct (update_tf_frames_spec now throttle _ n n' Htick)
    as (_ & _ & _ & Hinit1 & Hinit0).
  split_and!; [done | |].
  - intros Hinit Hnone. specialize (Hinit0 Hinit). by rewrite decide_True in Hinit0.
  - intros Hinit Hsome. specialize (Hinit0 Hinit). by rewrite decide_False in Hinit0.
Qed.

End MoreCallbacks.

Lemma update_tf_offset_witness :
  _update_tf 50%Q Fixtures.throttle_open Fixtures.constructed =
    Ok Fixtures.sampled_at_50 ∧
  anchored 50%Q Fixtures.sampled_at_50.
Proof.
  destruct (update_tf_offset (Mat := Fixtures.Mat) 50%Q Fixtures.throttle_open
              Fixtures.constructed) as [_ Hreturns].
  assert (Htick : _update_tf 50%Q Fixtures.throttle_open Fixtures.constructed =
                  Ok Fixtures.sampled_at_50) by (vm_compute; reflexivity).
  split; [exact Htick |].
  destruct (Hreturns Fixtures.sampled_at_50 Htick) as (_ & _ & Hcapture).
  apply Hcapture.
  - vm_compute. reflexivity.
  - vm_compute. discriminate.
Defined.

(** ** The node as a whole *)

Section MoreNode.

Context {double : Type} `{Double double} {Mat : Type}.
Context (toCvCopy : Image (double := double) → option string → Outcome Mat).
Implicit Types n : RerunLoggerNode (double := double) (Mat := Mat).

Lemma create_for_never_throws info n what :
  _create_subscriber_for info n ≠ Throw what.
Proof.
  unfold _create_subscriber_for,
    _create_image_subscriber, _create_imu_subscriber,
    _create_pose_stamped_subscriber, _create_tf_message_subscriber,
    _create_odometry_subscriber, _create_camera_info_subscriber.
  destruct (_resolve_entity_path _ _); repeat case_decide; done.
Qed.

Lemma create_never_throws registry : ∀ n what,
  _create_subscribers registry n ≠ Throw what.
Proof.
  induction registry as [|info registry IH]; intros n what; simpl; [done |].
  pose proof (create_for_never_throws info n) as Hfor.
  destruct (_create_subscriber_for info n) as [n1|what'|]; outcome_step;
    [apply IH | by destruct (Hfor what') | done].
Qed.

(** The image callback ends the way the conversion does. *)
Lemma image_callback_outcome entity_path lookup_transform (msg : Image) n :
  match toCvCopy msg (target_encoding msg) with
  | Ok _ => ∃ n', image_callback toCvCopy entity_path lookup_transform msg n = Ok n'
  | Throw what =>
      image_callback toCvCopy entity_path lookup_transform msg n = Throw what
  | Undefined =>
      image_callback toCvCopy entity_path lookup_transform msg n = Undefined
  end.
Proof.
  unfold image_callback.
  destruct (_normalize_timestamp (stamp (img_header msg)) n) as [ts n1].
  set (n2 := if negb (bool_decide (_root_frame n1 = "")) && lookup_transform
             then _ else n1).
  pose proof (log_image_cases toCvCopy (_rec n2) entity_path msg ts) as Hcases.
  destruct (toCvCopy msg (target_encoding msg)) as [img|what|].
  - destruct Hcases as (a & -> & _). by eexists.
  - by rewrite Hcases.
  - by rewrite Hcases.
Qed.

(** The two ways an event can throw. *)
Lemma dispatch_throws timers e n what :
  dispatch toCvCopy timers e n = Throw what →
  (what = "Time is out of dual 32-bit range" ∧
   ∃ now throttle, e = Sample now throttle ∧ dlt now (dlit 1)) ∨
  (∃ topic msg, e = Deliver topic (ImageMsg msg) ∧
     toCvCopy msg (target_encoding msg) = Throw what).
Proof.
  destruct e as [registry | now throttle | topic m]; simpl.
  - intros Hthrow. by destruct (create_never_throws registry n what).
  - destruct (tf_timer timers); [|done]. unfold _update_tf. intros Hthrow. left.
    destruct (decide (dlt now (dlit 1))) as [Hnow|Hnow].
    + rewrite (update_tf_frames_early now throttle _ n Hnow) in Hthrow.
      destruct (forallb _ _); [done |]. injection Hthrow as <-.
      split; [done |]. by exists now, throttle.
    + destruct (update_tf_frames_defined now throttle
                  (in_key_order (_tf_frame_to_entity_path n)) n Hnow) as [n' Hn'].
      by rewrite Hn' in Hthrow.
  - destruct (_topic_to_subscriber n !! topic) as [sub|]; [|done].
    destruct (sub_callback sub), m; try done; lazy beta iota delta [run_callback].
    + intros Hthrow. right. exists topic, msg. split; [done |].
      pose proof (image_callback_outcome entity_path lookup_transform msg n) as Hcb.
      destruct (toCvCopy msg (target_encoding msg)) as [img|what'|].
      * destruct Hcb as [n' Hn']. by rewrite Hn' in Hthrow.
      * rewrite Hcb in Hthrow. by injection Hthrow as <-.
      * by rewrite Hcb in Hthrow.
    + destruct (transforms msg) as [|first rest] eqn:Hmsg.
      * unfold tf_message_callback. by rewrite Hmsg.
      * destruct (tf_message_callback_nonempty msg n first rest Hmsg) as (n' & -> & _).
        done.
Qed.

Lemma dispatch_defined timers e n :
  well_formed_event toCvCopy e → ∃ n', dispatch toCvCopy timers e n = Ok n'.
Proof.
  destruct e as [registry | now throttle | topic m]; simpl.
  - apply create_defined.
  - intros Hnow. destruct (tf_timer timers); [|by eauto].
    by apply update_tf_frames_defined.
  - intros Hm. destruct (_topic_to_subscriber n !! topic) as [sub|].
    2: { by destruct m; eauto. }
    destruct (sub_callback sub), m; lazy beta iota delta [run_callback];
      try (by eauto).
    + pose proof (image_callback_outcome entity_path lookup_transform msg n) as Hcb.
      destruct Hm as [img Himg]. by rewrite Himg in Hcb.
    + destruct (transforms msg) as [|first rest] eqn:Hmsg; [done |].
      destruct (tf_message_callback_nonempty msg n first rest Hmsg) as (n' & -> & _).
      by eauto.
Qed.

(** What can end a run.  The discovery poll and every callback but the
    image one never throw: a run throws only through a sampler tick before
    the first second of the clock, with the text of [ros::Time]'s range
    check, or through an image whose conversion cv_bridge refuses, with
    cv_bridge's text.  On input the node is written for (registries of fully
    qualified names, ticks a second or more into the clock, transform lists
    with at least one entry, images cv_bridge converts) every run of the
    spinner goes through. *)
Theorem run_outcome timers (events : list Event) n :
  (∀ what, run toCvCopy timers events n = Throw what →
     (what = "Time is out of dual 32-bit range" ∧
      ∃ now throttle, Sample now throttle ∈ events ∧ dlt now (dlit 1)) ∨
     (∃ topic msg, Deliver topic (ImageMsg msg) ∈ events ∧
        toCvCopy msg (target_encoding msg) = Throw what)) ∧
  (Forall (well_formed_event toCvCopy) events →
     ∃ n', run toCvCopy timers events n = Ok n').
Proof.
  split.
  - revert n. induction events as [|e events IH]; intros n what; simpl; [done |].
    destruct (dispatch toCvCopy timers e n) as [n1|what'|] eqn:He; outcome_step.
    + intros Hrest.
      destruct (IH n1 what Hrest)
        as [(-> & now & throttle & Hin & Hnow) | (topic & msg & Hin & Hthrow)].
      * left. split; [done |]. exists now, throttle. split; [by right | done].
      * right. exists topic, msg. split; [by right | done].
    + intros [= ->].
      destruct (dispatch_throws timers e n what He)
        as [(-> & now & throttle & -> & Hnow) | (topic & msg & -> & Hthrow)].
      * left. split; [done |]. exists now, throttle. split; [by left | done].
      * right. exists topic, msg. split; [by left | done].
    + done.
  - revert n. induction events as [|e events IH]; intros n Hall; simpl; [by eauto |].
    apply Forall_cons in Hall as [He Hall].
    destruct (dispatch_defined timers e n He) as [n1 ->]. outcome_step.
    by apply IH.
Qed.

Lemma create_for_configuration info n n' :
  _create_subscriber_for info n = Ok n' → configuration n' = configuration n.
Proof.
  intros [[-> _] | (_ & _ & sub & _ & ->)]%create_for_cases; done.
Qed.

Lemma create_configuration registry : ∀ n n',
  _create_subscribers registry n = Ok n' → configuration n' = configuration n.
Proof.
  induction registry as [|info registry IH]; intros n n'; simpl.
  - by intros [= <-].
  - destruct (_create_subscriber_for info n) as [n1| |] eqn:Hfor; outcome_step; [|done..].
    intros Hrest. rewrite (IH _ _ Hrest). by eapply create_for_configuration.
Qed.

Lemma run_callback_configuration cb m n n' :
  run_callback toCvCopy cb m n = Ok n' → configuration n' = configuration n.
Proof.
  destruct cb, m; lazy beta iota delta [run_callback]; try (by intros [= <-]).
  - unfold image_callback.
    destruct (normalize_frame (stamp (img_header msg)) n) as (_ & _ & _ & Hcfg).
    destruct (_normalize_timestamp (stamp (img_header msg)) n) as [ts n1].
    destruct (log_image _ _ _ _ _) as [rec| |]; outcome_step; [|done..].
    intros [= <-]. rewrite <- Hcfg. simpl.
    destruct (negb _ && _); [|done]. by destruct (_tf_buffer n1 _ _ _ _).
  - intros [= <-]. unfold imu_callback.
    destruct (normalize_frame (stamp (imu_header msg)) n) as (_ & _ & _ & Hcfg).
    by destruct (_normalize_timestamp (stamp (imu_header msg)) n) as [ts n1].
  - intros [= <-]. unfold pose_stamped_callback.
    destruct (normalize_frame (stamp (ps_header msg)) n) as (_ & _ & _ & Hcfg).
    by destruct (_normalize_timestamp (stamp (ps_header msg)) n) as [ts n1].
  - unfold tf_message_callback.
    destruct (transforms msg !! 0%nat) as [first|]; outcome_step; [|done].
    destruct (normalize_frame (stamp (ts_header first)) n) as (_ & _ & _ & Hcfg).
    destruct (_normalize_timestamp (stamp (ts_header first)) n) as [ts n1].
    destruct (log_tf_message _ _ _ _) as [[rec warnings]| |]; outcome_step; [|done..].
    by intros [= <-].
  - intros [= <-]. unfold odometry_callback.
    destruct (normalize_frame (stamp (odom_header msg)) n) as (_ & _ & _ & Hcfg).
    by destruct (_normalize_timestamp (stamp (odom_header msg)) n) as [ts n1].
  - intros [= <-]. unfold camera_info_callback.
    destruct (normalize_frame (stamp (ci_header msg)) n) as (_ & _ & _ & Hcfg).
    by destruct (_normalize_timestamp (stamp (ci_header msg)) n) as [ts n1].
Qed.

(** What the configuration document decided stays as it is: no timer tick
    and no delivery changes the override table, the two frame tables, the
    root frame or the sampling rate. *)
Theorem configuration_immutable timers (events : list Event) : ∀ n n',
  run toCvCopy timers events n = Ok n' → configuration n' = configuration n.
Proof.
  induction events as [|e events IH]; intros n n'; simpl.
  - by intros [= <-].
  - destruct (dispatch toCvCopy timers e n) as [n1| |] eqn:He; outcome_step; [|done..].
    intros Hrest. rewrite (IH _ _ Hrest).
    destruct e as [registry | now throttle | topic m]; simpl in He.
    + by eapply create_configuration.
    + destruct (tf_timer timers); [|by injection He as <-].
      by destruct (update_tf_frames_spec now throttle _ n n1 He) as (_ & _ & -> & _).
    + destruct (_topic_to_subscriber n !! topic) as [sub|].
      * by eapply run_callback_configuration.
      * by injection He as <-.
Qed.

(** The constructor and the frame tree.  Without [tf.tree] the root frame
    is empty and so are the frame tables.  With a tree the root frame is its
    first key and is bound in both tables, with the empty parent when no frame
    is named twice; a tree without any key dereferences the end iterator. *)
Theorem ctor_root_frame indeterminate (tf_buffer : TfBuffer) (config : Config) :
  (tf config ≫= tree = None →
   ∀ n, RerunLoggerNode_ctor indeterminate tf_buffer config = Ok n →
     _root_frame n = "" ∧ _tf_frame_to_entity_path n = ∅ ∧ _tf_frame_to_parent n = ∅) ∧
  (∀ t, tf config ≫= tree = Some t → yaml_items t = [] →
     RerunLoggerNode_ctor (Mat := Mat) indeterminate tf_buffer config = Undefined) ∧
  (∀ t root value rest, tf config ≫= tree = Some t →
     yaml_items t = (root, value) :: rest →
     ∃ n, RerunLoggerNode_ctor (Mat := Mat) indeterminate tf_buffer config = Ok n ∧
          _root_frame n = root ∧
          is_Some (_tf_frame_to_entity_path n !! root) ∧
          is_Some (_tf_frame_to_parent n !! root) ∧
          (NoDup (frames_of t) →
           _tf_frame_to_entity_path n !! root = Some ("/" +:+ root) ∧
           _tf_frame_to_parent n !! root = Some "")).
Proof.
  unfold RerunLoggerNode_ctor, _read_yaml_config. split_and!.
  - intros Htree n.
    destruct (tf config) as [[rate [t|]]|]; simpl in *; try done; by intros [= <-].
  - intros t Htree Hitems.
    destruct (tf config) as [[rate [t'|]]|]; simpl in *; try done.
    injection Htree as ->. by rewrite Hitems.
  - intros t root value rest Htree Hitems.
    destruct (tf config) as [[rate [t'|]]|]; simpl in *; try done.
    injection Htree as ->. rewrite Hitems. simpl.
    eexists. split; [done |]. simpl.
    assert (Hdecl : declares t "" "" root ("" +:+ "/" +:+ root) "").
    { destruct t as [| s | kvs]; simpl in Hitems; try done.
      eapply declares_here. rewrite Hitems. left. }
    split; [done |].
    destruct (add_entry t "" "" {| ft_entity_path := ∅; ft_parent := ∅ |} _ _ _ Hdecl)
      as [Hpath Hparent].
    split_and!; [done.. |].
    intros Hnodup.
    by apply (add_declared t "" "" {| ft_entity_path := ∅; ft_parent := ∅ |}).
Qed.

(** A configured sampling rate decides the timer, whatever the member held
    before: zero gives no timer, any other rate a timer of period [1 / rate]. *)
Theorem spin_configured indeterminate (tf_buffer : TfBuffer) (config : Config) rate n :
  tf config ≫= update_rate = Some rate →
  RerunLoggerNode_ctor (Mat := Mat) indeterminate tf_buffer config = Ok n →
  on_tick (timer (spin n)) = run_create_subscribers ∧
  tf_timer (spin n) =
    if deqb rate (dlit 0) then None
    else Some {| period := ddiv (dlit 1) rate; on_tick := run_update_tf |}.
Proof.
  intros Hrate Hctor. split; [done |].
  unfold spin. simpl. rewrite (ctor_rate _ _ _ _ Hctor), Hrate. simpl.
  by destruct (deqb rate (dlit 0)).
Qed.

End MoreNode.

Lemma ctor_root_frame_witness :
  ∃ n : RerunLoggerNode (Mat := Fixtures.Mat),
    RerunLoggerNode_ctor 0%Q Fixtures.tf_buffer Fixtures.config_plain = Ok n ∧
    _root_frame n = "map" ∧
    _tf_frame_to_entity_path n !! "map" = Some "/map" ∧
    _tf_frame_to_parent n !! "map" = Some "".
Proof.
  destruct (ctor_root_frame (Mat := Fixtures.Mat) 0%Q Fixtures.tf_buffer
              Fixtures.config_plain) as (_ & _ & Hroot).
  destruct (Hroot (YMap [("map", YMap [("camera", YNull)])]) "map"
              (YMap [("camera", YNull)]) [] eq_refl eq_refl)
    as (n & Hctor & Hname & _ & _ & Hbound).
  exists n. split; [exact Hctor |]. split; [exact Hname |].
  apply Hbound. apply (bool_decide_unpack _). vm_compute. exact I.
Defined.

Lemma spin_configured_witness :
  tf_timer (spin (Mat := Fixtures.Mat) Fixtures.sampling_at_10) =
    Some {| period := (1 # 10)%Q; on_tick := run_update_tf |}.
Proof.
  destruct (spin_configured (Mat := Fixtures.Mat) 0%Q Fixtures.tf_buffer
              Fixtures.config_10hz 10%Q Fixtures.sampling_at_10) as [_ Htimer].
  - reflexivity.
  - vm_compute. reflexivity.
  - rewrite Htimer. reflexivity.
Defined.

Lemma configuration_immutable_witness :
  configuration Fixtures.polled = configuration Fixtures.constructed.
Proof.
  apply (configuration_immutable Fixtures.toCvCopy (spin Fixtures.constructed)
           [Poll Fixtures.registry; Poll Fixtures.registry]
           Fixtures.constructed Fixtures.polled).
  vm_compute. reflexivity.
Defined.

Lemma run_outcome_witness :
  ∃ n', run Fixtures.toCvCopy (spin Fixtures.constructed)
          [Poll Fixtures.registry;
           Sample 50%Q Fixtures.throttle_open;
           Deliver "/camera/image_raw" (ImageMsg Fixtures.depth_image)]
          Fixtures.constructed = Ok n'.
Proof.
  destruct (run_outcome Fixtures.toCvCopy (spin Fixtures.constructed)
              [Poll Fixtures.registry;
               Sample 50%Q Fixtures.throttle_open;
               Deliver "/camera/image_raw" (ImageMsg Fixtures.depth_image)]
              Fixtures.constructed) as [_ Hruns].
  apply Hruns. repeat constructor.
  - discriminate.
  - by exists (Fixtures.depth_image, None).
Defined.

(** ** More on the transcoders *)

Section MoreTranscoders.

Context {double : Type} `{Double double} {Mat : Type}.
Implicit Types rec : RecordingStream (double := double) (Mat := Mat).
Implicit Types n : RerunLoggerNode (double := double) (Mat := Mat).

(** The bulk handler is the single-transform transcoder run over the
    mapped entries of the list, in order; an unmapped entry leaves the stream,
    its timeline included, exactly as it was. *)
Theorem log_tf_message_as_transforms tbl rec (msg : TFMessage) (ts : double) :
  ∃ warnings,
    log_tf_message rec tbl msg ts =
      Ok (foldl (λ rec entry,
                   match tbl !! child_frame_id entry with
                   | Some entity_path => log_transform rec entity_path entry ts
                   | None => rec
                   end) rec (transforms msg),
          warnings).
Proof.
  unfold log_tf_message. generalize (@nil string). revert rec.
  induction (transforms msg) as [|entry entries IH]; intros rec warnings.
  - by eexists.
  - cbn [log_tf_entries foldl]. unfold log_tf_entry at 1.
    destruct (tbl !! child_frame_id entry) as [entity_path|] eqn:Hpath.
    + rewrite decide_False by done. outcome_step. apply IH.
    + rewrite decide_True by done. outcome_step. apply IH.
Qed.

(** A pose topic that is not overridden: the pose is logged as a rigid
    transform at the fallback path and, under the same timestamp, its
    position, narrowed to [float], as a one-point cloud at
    ["/trajectories/"] followed by that path, leading ['/'] included. *)
Theorem pose_stamped_trajectory n topic sub :
  _topic_to_entity_path n !! topic = None →
  _create_pose_stamped_subscriber topic n = Ok sub →
  ∃ flat,
    sub_callback sub = on_pose_stamped ("/topics" +:+ flat) ∧
    String.length flat = String.length topic ∧
    ∀ (msg : PoseStamped) n0,
      rec_rows (_rec (pose_stamped_callback ("/topics" +:+ flat) msg n0)) =
      rec_rows (_rec n0) ++
        [ {| row_entity_path := "/topics" +:+ flat;
             row_timestamp := Some (fst (_normalize_timestamp (stamp (ps_header msg)) n0));
             row_data := Transform3D (position (ps_pose msg)) (orientation (ps_pose msg)) |};
          {| row_entity_path := "/trajectories//topics" +:+ flat;
             row_timestamp := Some (fst (_normalize_timestamp (stamp (ps_header msg)) n0));
             row_data :=
               Points3D
                 [ {| v_x := static_cast_float (v_x (position (ps_pose msg)));
                      v_y := static_cast_float (v_y (position (ps_pose msg)));
                      v_z := static_cast_float (v_z (position (ps_pose msg))) |} ] |} ].
Proof.
  intros Hnone. unfold _create_pose_stamped_subscriber.
  rewrite resolve_fallback by done.
  destruct (flatten_topic topic) as [path|] eqn:Hflat; outcome_step; [|done].
  intros [= <-].
  assert (∃ last, Str.rfind "/" topic = Some last) as [last Hlast].
  { apply StrFacts.rfind_is_Some, flatten_topic_is_Some. by eauto. }
  destruct (flatten_topic_pointwise topic last Hlast) as (flat & Hpath & Hlen & _).
  rewrite Hflat in Hpath. injection Hpath as ->.
  exists flat. split_and!; [done.. |].
  intros msg n0. unfold pose_stamped_callback.
  destruct (normalize_frame (stamp (ps_header msg)) n0) as (Hrec & _).
  destruct (_normalize_timestamp (stamp (ps_header msg)) n0) as [ts n1].
  simpl in *. rewrite Hrec. by rewrite <- app_assoc.
Qed.

(** [static_cast<int>] keeps a width or height below [2 ^ 31] and turns
    one from there up to [2 ^ 32] into a negative number. *)
Lemma static_cast_int_cases (x : N) :
  (x < 2 ^ 32)%N →
  ((x < 2 ^ 31)%N → static_cast_int x = Z.of_N x) ∧
  ((2 ^ 31 ≤ x)%N → static_cast_int x = (Z.of_N x - 2 ^ 32)%Z ∧
                     (static_cast_int x < 0)%Z).
Proof.
  intros Hx. unfold static_cast_int.
  assert (Hx' : (0 ≤ Z.of_N x < 2 ^ 32)%Z) by lia.
  rewrite Z.mod_small by done. split; intros Hcase.
  - assert (Z.of_N x < 2 ^ 31)%Z by lia.
    destruct (Z.ltb_spec (Z.of_N x) (2 ^ 31)); [done | lia].
  - assert (2 ^ 31 ≤ Z.of_N x)%Z by lia.
    destruct (Z.ltb_spec (Z.of_N x) (2 ^ 31)); lia.
Qed.

(** The pinhole logged for a camera-intrinsics message holds [K]
    transposed, that is [K] read column by column, each entry narrowed to
    [float]; the resolution is the declared width and height converted to
    [int], which keeps a value below [2 ^ 31] and makes a larger one
    negative.  The row goes to the given path, and the stream's timeline is
    neither read from the message nor changed. *)
Theorem log_camera_info_matrix rec entity_path (msg : CameraInfo) (ts : double) :
  ∃ m w h,
    log_camera_info rec entity_path msg ts =
      {| rec_timestamp := rec_timestamp rec;
         rec_rows := rec_rows rec ++
           [ {| row_entity_path := entity_path;
                row_timestamp := rec_timestamp rec;
                row_data := Pinhole m (Some (w, h)) |} ] |} ∧
    length m = 9 ∧
    (∀ r c, r < 3 → c < 3 →
       m !! (3 * c + r) = Some (static_cast_float (ci_K msg (3 * r + c)))) ∧
    ((ci_width msg < 2 ^ 31)%N → w = Z.of_N (ci_width msg)) ∧
    ((ci_height msg < 2 ^ 31)%N → h = Z.of_N (ci_height msg)) ∧
    ((2 ^ 31 ≤ ci_width msg < 2 ^ 32)%N → w = (Z.of_N (ci_width msg) - 2 ^ 32)%Z) ∧
    ((2 ^ 31 ≤ ci_height msg < 2 ^ 32)%N → h = (Z.of_N (ci_height msg) - 2 ^ 32)%Z).
Proof.
  do 3 eexists. split_and!; [reflexivity | reflexivity | | | | |].
  - intros r c Hr Hc.
    destruct r as [|[|[|r]]], c as [|[|[|c]]]; try lia; reflexivity.
  - intros Hw. apply static_cast_int_cases; [|done].
    etrans; [exact Hw | done].
  - intros Hh. apply static_cast_int_cases; [|done].
    etrans; [exact Hh | done].
  - intros [Hlo Hhi]. by apply static_cast_int_cases.
  - intros [Hlo Hhi]. by apply static_cast_int_cases.
Qed.

(** An [extra_pinholes] entry needs nine numbers: with fewer, reading it
    throws and nothing is logged; with nine or more, the first nine are
    logged transposed, like the matrix of a camera-intrinsics message, with
    the entry's width and height. *)
Theorem read_extra_pinhole_spec (e : ExtraPinhole (double := double)) :
  (length (ep_image_from_camera e) < 9 → ∃ what, _read_extra_pinhole e = Throw what) ∧
  (9 ≤ length (ep_image_from_camera e) →
   ∃ m, _read_extra_pinhole e =
          Ok (ep_entity_path e, StaticPinhole m (ep_width e) (ep_height e)) ∧
        length m = 9 ∧
        ∀ r c, r < 3 → c < 3 →
          m !! (3 * c + r) = ep_image_from_camera e !! (3 * r + c)).
Proof.
  unfold _read_extra_pinhole. destruct e as [path k w h]. simpl. split.
  - intros Hlen.
    do 9 (destruct k as [|? k]; [by eexists |]). simpl in Hlen. lia.
  - intros Hlen.
    do 9 (destruct k as [|? k]; [simpl in Hlen; lia |]).
    eexists. split_and!; [reflexivity | reflexivity |].
    intros r c Hr Hc.
    destruct r as [|[|[|r]]], c as [|[|[|c]]]; try lia; reflexivity.
Qed.

(** An [extra_transform3ds] entry needs the twelve numbers of a row-major
    3x4 matrix: with fewer, reading it throws; with twelve or more, the
    translation is the fourth column and the 3x3 matrix is the rotation
    block read column by column. *)
Theorem read_extra_transform3d_spec (e : ExtraTransform3D (double := double)) :
  (length (et_transform e) < 12 → ∃ what, _read_extra_transform3d e = Throw what) ∧
  (12 ≤ length (et_transform e) →
   ∃ tr m, _read_extra_transform3d e =
             Ok (et_entity_path e, StaticTransform3D tr m (et_from_parent e)) ∧
           length tr = 3 ∧ length m = 9 ∧
           (∀ r, r < 3 → tr !! r = et_transform e !! (4 * r + 3)) ∧
           (∀ r c, r < 3 → c < 3 → m !! (3 * c + r) = et_transform e !! (4 * r + c))).
Proof.
  unfold _read_extra_transform3d. destruct e as [path t from_parent]. simpl. split.
  - intros Hlen.
    do 12 (destruct t as [|? t]; [by eexists |]). simpl in Hlen. lia.
  - intros Hlen.
    do 12 (destruct t as [|? t]; [simpl in Hlen; lia |]).
    do 2 eexists. split_and!; [reflexivity | reflexivity | reflexivity | |].
    + intros r Hr. destruct r as [|[|[|r]]]; try lia; reflexivity.
    + intros r c Hr Hc.
      destruct r as [|[|[|r]]], c as [|[|[|c]]]; try lia; reflexivity.
Qed.

End MoreTranscoders.

Lemma pose_stamped_trajectory_witness :
  ∃ flat,
    _create_pose_stamped_subscriber "/robot/pose" Fixtures.blank =
      Ok {| sub_topic := "/robot/pose"; sub_queue_size := 100;
            sub_callback := on_pose_stamped ("/topics" +:+ flat) |} ∧
    String.length flat = 11.
Proof.
  destruct (pose_stamped_trajectory Fixtures.blank "/robot/pose"
              {| sub_topic := "/robot/pose"; sub_queue_size := 100;
                 sub_callback := on_pose_stamped "/topics/robot/pose" |}
              eq_refl eq_refl) as (flat & Hcb & Hlen & _).
  exists flat. split; [|exact Hlen].
  simpl in Hcb. by rewrite <- Hcb.
Defined.

Lemma log_camera_info_matrix_witness :
  ∃ m h,
    log_camera_info Fixtures.no_rows "/topics/camera" Fixtures.wide_camera_info 30%Q =
      {| rec_timestamp := None;
         rec_rows := [ {| row_entity_path := "/topics/camera";
                          row_timestamp := None;
                          row_data := Pinhole m (Some ((-1)%Z, h)) |} ] |}.
Proof.
  destruct (log_camera_info_matrix (Mat := Fixtures.Mat) Fixtures.no_rows
              "/topics/camera" Fixtures.wide_camera_info 30%Q)
    as (m & w & h & Hlog & _ & _ & _ & _ & Hwide & _).
  exists m, h. rewrite Hlog. rewrite Hwide by done. reflexivity.
Defined.

Lemma read_extra_pinhole_spec_witness :
  ∃ m, _read_extra_pinhole
         {| ep_entity_path := "/world/camera";
            ep_image_from_camera := [500; 0; 320; 0; 500; 240; 0; 0; 1]%Q;
            ep_width := 640; ep_height := 480 |} =
       Ok ("/world/camera", StaticPinhole m 640 480) ∧
       m !! 6 = Some 320%Q.
Proof.
  destruct (read_extra_pinhole_spec
              {| ep_entity_path := "/world/camera";
                 ep_image_from_camera := [500; 0; 320; 0; 500; 240; 0; 0; 1]%Q;
                 ep_width := 640; ep_height := 480 |}) as [_ Hok].
  destruct Hok as (m & Hread & _ & Hm); [simpl; lia |].
  exists m. split; [exact Hread |].
  apply (Hm 0 2); lia.
Defined.

Lemma read_extra_transform3d_spec_witness :
  ∃ what, _read_extra_transform3d
            {| et_entity_path := "/world/lidar";
               et_transform := [1; 0; 0; 0; 1; 0; 0; 0; 1]%Q;
               et_from_parent := false |} = Throw what.
Proof.
  destruct (read_extra_transform3d_spec
              {| et_entity_path := "/world/lidar";
                 et_transform := [1; 0; 0; 0; 1; 0; 0; 0; 1]%Q;
                 et_from_parent := false |}) as [Hthrow _].
  apply Hthrow. simpl. lia.
Defined.

Lemma callback_rows_stamped_witness :
  stamped_with (fst (_normalize_timestamp 100%Q Fixtures.blank)) (_rec Fixtures.blank)
    (_rec (imu_callback "/topics/imu/data" (Fixtures.imu_at 100%Q) Fixtures.blank)).
Proof.
  apply (callback_rows_stamped Fixtures.toCvCopy (on_imu "/topics/imu/data")
           (ImuMsg (Fixtures.imu_at 100%Q)) Fixtures.blank
           (imu_callback "/topics/imu/data" (Fixtures.imu_at 100%Q) Fixtures.blank)
           100%Q).
  - intros entity_path. discriminate.
  - reflexivity.
  - reflexivity.
  - reflexivity.
Defined.

(** ** Worked values *)

Example resolve_four :
  _resolve_entity_path ∅ "/one/two/three/four" = Some "/topics/one-two-three/four".
Proof. reflexivity. Qed.

Example resolve_relative :
  _resolve_entity_path ∅ "a/b/c" = Some "/topicsa-b/c".
Proof. reflexivity. Qed.

Example resolve_trailing_slash :
  _resolve_entity_path ∅ "/a/b/" = Some "/topics/a-b/".
Proof. reflexivity. Qed.

Example parent_of_single_segment :
  parent_entity_path "/topics/camera_info" = "/topics".
Proof. reflexivity. Qed.

Example later_declaration_wins :
  ft_entity_path
    (frame_tables (YMap [("A", YMap [("C", YNull)]); ("B", YMap [("C", YNull)])]))
    !! "C" = Some "/B/C".
Proof. reflexivity. Qed.
